(** * logaro: a hierarchical structured logger (Go)

    Shallow embedding of [Logger] and its methods ([GenerateLogger], [Log],
    [isEnabled], [Child], [WithFields], [WithSerializers], [mergeFields],
    [serializeEntry]) over an explicit store.

    Go maps and [*Logger] values are references: the store keeps one table
    of logger objects and one table of map objects, and a reference is an
    index into its table.  A nil map is [None].  Panics are an outcome of
    their own and keep the store reached when they were raised.

    Assumed of the callers: the transforms handed to [WithSerializers] are
    functions of their argument, and the table they come in is not written
    after the call.  [range] over a map visits its entries in the order of
    [map_to_list]; the lemmas on the loops hold for every enumeration
    without repeated keys, so no result depends on that order. *)

From Stdlib Require Strings.Byte.
From stdpp Require Import base option list strings gmap fin_maps.


(** ** Values of type [interface{}] *)

(** A reference to a [map[string]interface{}] object; [None] is the nil map. *)
Abbreviation mapref := (option nat).

Inductive value : Type :=
  | VNil
  | VBool (b : bool)
  | VInt (z : Z)
  | VString (s : string)
  | VMap (m : mapref).

(** ** The store *)

Record LogEntry : Type := mkLogEntry {
  Timestamp : string;
  Message : string;
  EntryLevel : string;
  Fields : mapref
}.

(** What reaches standard output: a record written by a JSON encoder (the
    entry with the contents its [Fields] map had when it was encoded), or a
    line printed by [fmt.Println]. *)
Inductive event : Type :=
  | Encoded (e : LogEntry) (fields : gmap string value)
  | Printed (line : string).

(** Outcome of a call.  [Diverged] is the model running out of fuel on a
    parent chain. *)
Inductive res (S A : Type) : Type :=
  | Ok (a : A) (s : S)
  | Panic (msg : string) (s : S)
  | Diverged.
Arguments Ok {S A} a s.
Arguments Panic {S A} msg s.
Arguments Diverged {S A}.

(** A [*json.Encoder]: given the entry and the contents of its fields it
    answers an error, or [None] when the record was written. *)
Definition Encoder : Type := LogEntry → gmap string value → option string.

(** The table of map objects.  A reference [Some r] names the object at
    index [r]; [make(map[string]interface{})] appends an empty one. *)
Abbreviation Heap := (list (gmap string value)).

(** A [func(interface{}) interface{}] value.  It may write to the map
    objects it is handed, and it may panic. *)
Definition SerializerFn : Type := value → Heap → res Heap value.

Record Logger : Type := mkLogger {
  Level : string;
  Writer : Encoder;
  Parent : option nat;
  Children : list nat;
  EventFields : mapref;
  Serializer : option SerializerFn
}.

Record State : Type := mkState {
  loggers : list Logger;
  maps : Heap;
  stdout : list event
}.

(** ** A state-and-panic monad *)

Definition Comp (S A : Type) : Type := S → res S A.

Definition ret {S A} (a : A) : Comp S A := λ s, Ok a s.

Definition bind {S A B} (m : Comp S A) (k : A → Comp S B) : Comp S B :=
  λ s, match m s with
       | Ok a s' => k a s'
       | Panic msg s' => Panic msg s'
       | Diverged => Diverged
       end.

Definition panic {S A} (msg : string) : Comp S A := λ s, Panic msg s.

Global Instance Comp_ret {S} : MRet (Comp S) := @ret S.
Global Instance Comp_bind {S} : MBind (Comp S) := λ A B k m, bind m k.

(** [for _, x := range xs { body x }] over an enumeration [xs]. *)
Fixpoint forRange {S A} (xs : list A) (body : A → Comp S unit)
    : Comp S unit :=
  match xs with
  | [] => mret tt
  | x :: xs' => body x;; forRange xs' body
  end.

(** ** Primitive operations on the store *)

(** Dereferencing a [*Logger]; a pointer to nothing is the nil pointer. *)
Abbreviation M := (Comp State).

Definition getLogger (l : nat) : M Logger :=
  λ s, match loggers s !! l with
       | Some lg => Ok lg s
       | None => Panic "invalid memory address or nil pointer dereference" s
       end.

Definition setLogger (l : nat) (f : Logger → Logger) : M unit :=
  λ s, match loggers s !! l with
       | Some lg =>
           Ok tt (mkState (<[l := f lg]> (loggers s)) (maps s) (stdout s))
       | None => Panic "invalid memory address or nil pointer dereference" s
       end.

(** [&Logger{...}]: a new object, at the next free index. *)
Definition newLogger (lg : Logger) : M nat :=
  λ s, Ok (length (loggers s))
          (mkState (loggers s ++ [lg]) (maps s) (stdout s)).

(** [make(map[string]interface{})]. *)
Definition makeMap : M mapref :=
  λ s, Ok (Some (length (maps s)))
          (mkState (loggers s) (maps s ++ [∅]) (stdout s)).

(** The contents of a map; a nil map reads as empty. *)
Definition contents (h : Heap) (m : mapref) : gmap string value :=
  match m with
  | Some r => default ∅ (h !! r)
  | None => ∅
  end.

Definition readMap (m : mapref) : M (gmap string value) :=
  λ s, Ok (contents (maps s) m) s.

(** [m[key] = val] on the table of maps; writing to a nil map panics. *)
Definition heapAssign (m : mapref) (key : string) (val : value)
    : Comp Heap unit :=
  λ h, match m with
       | Some r => Ok tt (<[r := <[key := val]> (default ∅ (h !! r))]> h)
       | None => Panic "assignment to entry in nil map" h
       end.

(** Running a computation on the table of maps inside the store. *)
Definition liftHeap {A} (c : Comp Heap A) : M A :=
  λ s, match c (maps s) with
       | Ok a h => Ok a (mkState (loggers s) h (stdout s))
       | Panic msg h => Panic msg (mkState (loggers s) h (stdout s))
       | Diverged => Diverged
       end.

Definition mapAssign (m : mapref) (key : string) (val : value) : M unit :=
  liftHeap (heapAssign m key val).

Definition write (ev : event) : M unit :=
  λ s, Ok tt (mkState (loggers s) (maps s) (stdout s ++ [ev])).

(** ** The level filter *)

Definition levels : gmap string Z :=
  list_to_map
    [("fatal", 5); ("error", 4); ("warn", 3); ("info", 2);
     ("debug", 1)]%string%Z.

(** [levels[name]]: a missing key reads as the zero value. *)
Definition severity (name : string) : Z := default 0%Z (levels !! name).

Definition isEnabled (lg : Logger) (level : string) : bool :=
  bool_decide (severity level >= severity (Level lg))%Z.

(** ** Field merger *)

(** [for key, val := range src { dst[key] = val }]. *)
Definition rangeAssign (src dst : mapref) : M unit :=
  c ← readMap src;
  forRange (map_to_list c) (λ kv, mapAssign dst kv.1 kv.2).

(** [mergeFields]; the fuel bounds the length of the parent chain. *)
Fixpoint mergeFields (fuel : nat) (l : nat) (fields : mapref) : M mapref :=
  match fuel with
  | 0 => λ _, Diverged
  | S fuel' =>
      lg ← getLogger l;
      mergedFields ← makeMap;
      mergedFields ←
        match Parent lg with
        | Some p =>
            pl ← getLogger p;
            mergeFields fuel' p (EventFields pl)
        | None => mret mergedFields
        end;
      rangeAssign (EventFields lg) mergedFields;;
      rangeAssign fields mergedFields;;
      mret mergedFields
  end.

(** No parent chain of a store is longer than its number of loggers, unless
    it has a cycle. *)
Definition chainBound : M nat := λ s, Ok (length (loggers s)) s.

(** ** Serializers *)

Definition assertString (v : value) : M string :=
  match v with
  | VString s => mret s
  | _ => panic "interface conversion: interface {} is not string"
  end.

Definition assertMap (v : value) : M mapref :=
  match v with
  | VMap m => mret m
  | _ => panic "interface conversion: interface {} is not map[string]interface {}"
  end.

Definition serializeEntry (l : nat) (entry : LogEntry) : M LogEntry :=
  lg ← getLogger l;
  match Serializer lg with
  | Some serializer =>
      v ← liftHeap (serializer (VString (Message entry)));
      message ← assertString v;
      w ← liftHeap (serializer (VMap (Fields entry)));
      fields ← assertMap w;
      mret (mkLogEntry (Timestamp entry) message (EntryLevel entry) fields)
  | None => mret entry
  end.

(** One pass of the loop of the closure that [WithSerializers] installs.
    [data.(map[string]interface{})] is asserted in every pass, and the map
    is written in place. *)
Definition compositeStep (data : value) (kv : string * (value → value))
    : Comp Heap unit :=
  match data with
  | VMap m =>
      λ h, match contents h m !! kv.1 with
           | Some val => heapAssign m kv.1 (kv.2 val) h
           | None => Ok tt h
           end
  | _ => panic "interface conversion: interface {} is not map[string]interface {}"
  end.

Definition compositeSerializer (serializers : gmap string (value → value))
    : SerializerFn :=
  λ data,
    forRange (map_to_list serializers) (compositeStep data);;
    mret data.

(** ** Sink writer and [Log] *)

(** [l.Writer.Encode(entry)] followed by the report of its error. *)
Definition encode (w : Encoder) (entry : LogEntry) : M unit :=
  c ← readMap (Fields entry);
  match w entry c with
  | None => write (Encoded entry c)
  | Some err => write (Printed ("Error encoding log entry: " +:+ err))
  end.

(** [now] is what [time.Now().Format(time.RFC3339)] answers. *)
Definition Log (now : string) (l : nat) (level message : string)
    (fields : mapref) : M unit :=
  lg ← getLogger l;
  if isEnabled lg level then
    fuel ← chainBound;
    merged ← mergeFields fuel l fields;
    let entry := mkLogEntry now message level merged in
    entry ←
      match Serializer lg with
      | Some _ => serializeEntry l entry
      | None => mret entry
      end;
    encode (Writer lg) entry
  else mret tt.

(** ** Creation API *)

Section Creation.

(** [json.NewEncoder(os.Stdout)], the writer of every logger made by
    [GenerateLogger]. *)
Variable jsonStdout : Encoder.

Definition GenerateLogger : M nat :=
  children ← mret [];
  eventFields ← makeMap;
  newLogger (mkLogger "info" jsonStdout None children eventFields None).

Definition Child (l : nat) (fields : mapref) : M nat :=
  child ← GenerateLogger;
  lg ← getLogger l;
  setLogger child (λ c, mkLogger (Level lg) (Writer c) (Parent c)
                          (Children c) (EventFields c) (Serializer c));;
  setLogger child (λ c, mkLogger (Level c) (Writer c) (Some l)
                          (Children c) (EventFields c) (Serializer c));;
  fuel ← chainBound;
  merged ← mergeFields fuel l fields;
  setLogger child (λ c, mkLogger (Level c) (Writer c) (Parent c)
                          (Children c) merged (Serializer c));;
  setLogger l (λ c, mkLogger (Level c) (Writer c) (Parent c)
                      (Children c ++ [child]) (EventFields c) (Serializer c));;
  mret child.

Definition WithFields (l : nat) (fields : mapref) : M nat :=
  child ← Child l fields;
  lg ← getLogger l;
  setLogger child (λ c, mkLogger (Level c) (Writer c) (Parent c)
                          (Children c) (EventFields c) (Serializer lg));;
  mret child.

Definition WithSerializers (l : nat)
    (serializers : gmap string (value → value)) : M nat :=
  child ← Child l None;
  setLogger child (λ c, mkLogger (Level c) (Writer c) (Parent c)
                          (Children c) (EventFields c)
                          (Some (compositeSerializer serializers)));;
  mret child.

End Creation.

(** ** Specification vocabulary *)

(** A reference is valid when it is nil or names an allocated map. *)
Definition validRef (h : Heap) (m : mapref) : Prop :=
  match m with
  | Some r => r < length h
  | None => True
  end.

(** Well-formed stores: a parent is older than its child, and event fields
    are allocated. *)
Definition wf (s : State) : Prop :=
  ∀ i lg, loggers s !! i = Some lg →
    (∀ p, Parent lg = Some p → p < i) ∧ validRef (maps s) (EventFields lg).

(** [ancestry ls l path]: [path] is the ancestor chain of [l], root first,
    [l] last. *)
Inductive ancestry (ls : list Logger) : nat → list nat → Prop :=
  | ancestry_root l lg :
      ls !! l = Some lg → Parent lg = None → ancestry ls l [l]
  | ancestry_child l lg p path :
      ls !! l = Some lg → Parent lg = Some p → ancestry ls p path →
      ancestry ls l (path ++ [l]).

(** The event fields a node contributes. *)
Definition eventFieldsOf (s : State) (i : nat) : gmap string value :=
  match loggers s !! i with
  | Some lg => contents (maps s) (EventFields lg)
  | None => ∅
  end.

(** Overlay of a sequence of field maps, earliest first: a later map wins
    on a key it shares with an earlier one. *)
Definition deepUnion (layers : list (gmap string value))
    : gmap string value :=
  foldl (λ acc m, m ∪ acc) ∅ layers.

(** The event fields along a chain. *)
Definition layers (s : State) (path : list nat) : list (gmap string value) :=
  eventFieldsOf s <$> path.

(** The fields of the entry a call builds on [l] with call-site map
    [fields], when [path] is the chain of [l]. *)
Definition mergedFields (s : State) (path : list nat) (fields : mapref)
    : gmap string value :=
  contents (maps s) fields ∪ deepUnion (layers s path).

(** The map object a serializer argument names, if any. *)
Definition target (data : value) : mapref :=
  match data with
  | VMap m => m
  | _ => None
  end.

(** [h'] differs from [h] at most in the object [m]. *)
Definition sameExcept (m : mapref) (h h' : Heap) : Prop :=
  length h' = length h ∧ ∀ j, Some j ≠ m → h' !! j = h !! j.

(** What a call hands to standard output once its entry is built. *)
Definition report (w : Encoder) (entry : LogEntry) (c : gmap string value)
    : event :=
  match w entry c with
  | None => Encoded entry c
  | Some err => Printed ("Error encoding log entry: " +:+ err)
  end.

(** [l.Children = append(l.Children, child)]. *)
Definition addChild (lg : Logger) (child : nat) : Logger :=
  mkLogger (Level lg) (Writer lg) (Parent lg) (Children lg ++ [child])
    (EventFields lg) (Serializer lg).

(** A serializer the API can leave in a logger: none, or the closure of
    [WithSerializers]. *)
Definition installed (ser : option SerializerFn) : Prop :=
  ser = None ∨ ∃ tbl, ser = Some (compositeSerializer tbl).

(** A serializer that panics on the message of an entry. *)
Definition rejectsMessages (ser : option SerializerFn) : Prop :=
  ∃ tbl, tbl ≠ ∅ ∧ ser = Some (compositeSerializer tbl).

(** Every serializer of the store was left there by the API. *)
Definition apiBuilt (s : State) : Prop :=
  ∀ i lg, loggers s !! i = Some lg → installed (Serializer lg).

(** The event fields of a node cover every key of its ancestors. *)
Definition frozen (s : State) : Prop :=
  ∀ i lg p path,
    loggers s !! i = Some lg → Parent lg = Some p →
    ancestry (loggers s) p path →
    dom (deepUnion (layers s path)) ⊆ dom (eventFieldsOf s i).

(** Every logger of [s] is still there in [s'], with the same level,
    parent, serializer and event fields: the same map object, holding what
    it held. *)
Definition extends (s s' : State) : Prop :=
  ∀ i lg, loggers s !! i = Some lg →
    ∃ lg', loggers s' !! i = Some lg' ∧
      Level lg' = Level lg ∧ Parent lg' = Parent lg ∧
      Serializer lg' = Serializer lg ∧
      EventFields lg' = EventFields lg ∧
      contents (maps s') (EventFields lg') =
        contents (maps s) (EventFields lg).

(** What holds of every store the API builds. *)
Definition inv (s : State) : Prop := wf s ∧ apiBuilt s ∧ frozen s.

(** What a caller can do to a store: build a field map, and call the API. *)
Inductive call : Type :=
  | CallMakeMap (c : gmap string value)
  | CallGenerateLogger
  | CallChild (l : nat) (fields : mapref)
  | CallWithFields (l : nat) (fields : mapref)
  | CallWithSerializers (l : nat) (serializers : gmap string (value → value))
  | CallLog (now : string) (l : nat) (level message : string)
      (fields : mapref).

(** A map literal of the caller. *)
Definition literalMap (c : gmap string value) : M mapref :=
  λ s, Ok (Some (length (maps s)))
          (mkState (loggers s) (maps s ++ [c]) (stdout s)).

(** The state a computation ends in, by return or by panic. *)
Definition after {A} (r : res State A) (s' : State) : Prop :=
  match r with
  | Ok _ s | Panic _ s => s' = s
  | Diverged => False
  end.

(** The arguments of a call name objects of the store. *)
Definition argsOk (s : State) (c : call) : Prop :=
  match c with
  | CallMakeMap _ | CallGenerateLogger => True
  | CallChild l fields | CallWithFields l fields | CallLog _ l _ _ fields =>
      is_Some (loggers s !! l) ∧ validRef (maps s) fields
  | CallWithSerializers l _ => is_Some (loggers s !! l)
  end.

(** ** Stores of the API *)

Section ApiStores.

Variable jsonStdout : Encoder.

(** The store after a child of [l] was created: [g] are the maps the merge
    left behind, [merged] the child's event fields, [ser] its serializer. *)
Definition childState (s : State) (l : nat) (lg : Logger) (g : Heap)
    (merged : gmap string value) (ser : option SerializerFn) : State :=
  let child :=
    mkLogger (Level lg) jsonStdout (Some l) []
      (Some (length (maps s ++ [∅] ++ g))) ser in
  mkState (<[l := addChild lg (length (loggers s))]> (loggers s ++ [child]))
    (maps s ++ [∅] ++ g ++ [merged]) (stdout s).

(** The shapes of a step of the API. *)
Inductive transition (s : State) : State → Prop :=
  | tr_grow g evs :
      transition s (mkState (loggers s) (maps s ++ g) (stdout s ++ evs))
  | tr_root :
      transition s
        (mkState
           (loggers s ++
              [mkLogger "info" jsonStdout None [] (Some (length (maps s)))
                 None])
           (maps s ++ [∅]) (stdout s))
  | tr_child l lg path fields g ser :
      loggers s !! l = Some lg → ancestry (loggers s) l path →
      validRef (maps s) fields → installed ser →
      transition s
        (childState s l lg g (mergedFields s path fields) ser).

(** Making a call; what it answers is dropped. *)
Definition run (c : call) : M unit :=
  match c with
  | CallMakeMap m => literalMap m;; mret tt
  | CallGenerateLogger => GenerateLogger jsonStdout;; mret tt
  | CallChild l fields => Child jsonStdout l fields;; mret tt
  | CallWithFields l fields => WithFields jsonStdout l fields;; mret tt
  | CallWithSerializers l tbl => WithSerializers jsonStdout l tbl;; mret tt
  | CallLog now l level message fields => Log now l level message fields
  end.

(** The stores callers can build from nothing. *)
Inductive reachable : State → Prop :=
  | reachable_init : reachable (mkState [] [] [])
  | reachable_step s c s' :
      reachable s → argsOk s c → after (run c s) s' → reachable s'.

End ApiStores.

(** ** Stores and calls of the examples *)

(** The names of the table of [isEnabled], in the order it lists them. *)
Definition knownLevels : list string :=
  ["fatal"; "error"; "warn"; "info"; "debug"]%string.

(** An encoder that writes every record. *)
Definition acceptAll : Encoder := λ _ _, None.

(** A store with one root logger, writing to [w]. *)
Definition rootStore (w : Encoder) : State :=
  mkState [mkLogger "info" w None [] (Some 0) None] [∅] [].

(** A serializer written by hand: it answers its argument. *)
Definition passThrough : SerializerFn := λ data h, Ok data h.

(** A root that carries a serializer of its own. *)
Definition serializingRoot : State :=
  mkState [mkLogger "info" acceptAll None [] (Some 0) (Some passThrough)]
    [∅] [].

(** [GenerateLogger().WithSerializers({"secret": mask})]. *)
Definition maskedLogger (jsonStdout : Encoder) (mask : value → value)
    : M nat :=
  root ← GenerateLogger jsonStdout;
  WithSerializers jsonStdout root {["secret" := mask]}.

(** [{"secret":"abc","other":"x"}]. *)
Definition secretFields : gmap string value :=
  {["secret" := VString "abc"; "other" := VString "x"]}.

(** [maskedLogger.Log("info", message, {"secret":"abc","other":"x"})]. *)
Definition maskedCall (jsonStdout : Encoder) (mask : value → value)
    (now message : string) : M unit :=
  l ← maskedLogger jsonStdout mask;
  fields ← literalMap secretFields;
  Log now l "info" message fields.

(** [P := root.Child({"p":1}); A := P.Child({"x":1}); B := P.Child({"y":2})],
    and then the merged fields of [A] and of [B]. *)
Definition siblings (jsonStdout : Encoder)
    : M (gmap string value * gmap string value) :=
  root ← GenerateLogger jsonStdout;
  p ← literalMap {["p" := VInt 1]};
  P ← Child jsonStdout root p;
  x ← literalMap {["x" := VInt 1]};
  A ← Child jsonStdout P x;
  y ← literalMap {["y" := VInt 2]};
  B ← Child jsonStdout P y;
  fuel ← chainBound;
  a ← mergeFields fuel A None;
  fieldsA ← readMap a;
  b ← mergeFields fuel B None;
  fieldsB ← readMap b;
  mret (fieldsA, fieldsB).

(** The overlay of the call-site fields on the event fields of the node
    alone. *)
Definition overlayOwn (s : State) (l : nat) (fields : mapref)
    : gmap string value :=
  contents (maps s) fields ∪ eventFieldsOf s l.

(** The store after [root := GenerateLogger(); root.Child({"p":1})]. *)
Definition parentAndChild : State :=
  Eval vm_compute in
    match
      (root ← GenerateLogger acceptAll;
       p ← literalMap {["p" := VInt 1]};
       Child acceptAll root p) (mkState [] [] [])
    with
    | Ok _ s => s
    | _ => mkState [] [] []
    end.

(** ** Comparison of entries *)

Global Instance byte_eq_dec : EqDecision Byte.byte := Byte.byte_eq_dec.

Section Comparison.

(** [json.Marshal] on a value of the store: the bytes, or [None] for an
    error. *)
Variable jsonMarshal : Heap → value → option (list Byte.byte).

Definition compareFieldValues (h : Heap) (a b : value) : bool :=
  match jsonMarshal h a, jsonMarshal h b with
  | Some bytesA, Some bytesB => bool_decide (bytesA = bytesB)
  | _, _ => false
  end.

(** The loop of [compareFields] over an enumeration of [a]; it answers at
    the first key that [b] lacks or holds with another value. *)
Fixpoint compareFieldsLoop (h : Heap) (kvs : list (string * value))
    (b : gmap string value) : bool :=
  match kvs with
  | [] => true
  | (key, valA) :: rest =>
      match b !! key with
      | Some valB =>
          if compareFieldValues h valA valB then compareFieldsLoop h rest b
          else false
      | None => false
      end
  end.

Definition compareFields (h : Heap) (a b : mapref) : bool :=
  if bool_decide (size (contents h a) ≠ size (contents h b)) then false
  else compareFieldsLoop h (map_to_list (contents h a)) (contents h b).

Definition compareLogEntries (h : Heap) (a b : LogEntry) : bool :=
  bool_decide (Timestamp a = Timestamp b) &&
  bool_decide (Message a = Message b) &&
  bool_decide (EntryLevel a = EntryLevel b) &&
  compareFields h (Fields a) (Fields b).

(** Every value of a map can be marshalled. *)
Definition marshallable (h : Heap) (m : mapref) : Prop :=
  ∀ k v, contents h m !! k = Some v → is_Some (jsonMarshal h v).

End Comparison.

(** A marshaller for the examples: it knows [null] and the booleans, and
    answers an error for every other value. *)
Definition sampleMarshal : Heap → value → option (list Byte.byte) :=
  λ _ v,
    match v with
    | VNil => Some [Byte.x6e; Byte.x75; Byte.x6c; Byte.x6c]
    | VBool true => Some [Byte.x74; Byte.x72; Byte.x75; Byte.x65]
    | VBool false => Some [Byte.x66; Byte.x61; Byte.x6c; Byte.x73; Byte.x65]
    | _ => None
    end.

(** A root whose writer was replaced by the caller. *)
Definition quietRoot : State :=
  mkState [mkLogger "warn" (λ _ _, Some "closed"%string) None [] (Some 0) None]
    [{["app" := VString "logaro"]}] [].

(** A serializer that answers nil, whatever it is handed. *)
Definition nilSerializer : SerializerFn := λ _ h, Ok VNil h.

(** A serializer that puts a tag before a message and hands maps back. *)
Definition tagSerializer : SerializerFn :=
  λ data h,
    match data with
    | VString str => Ok (VString ("[app] " +:+ str)) h
    | _ => Ok data h
    end.

(** A root with a serializer: [ser]. *)
Definition customRoot (ser : SerializerFn) : State :=
  mkState [mkLogger "info" acceptAll None [] (Some 0) (Some ser)] [∅] [].

(** * Proofs *)

Ltac unfold_monad :=
  unfold mbind, mret, Comp_bind, Comp_ret, bind, ret, panic in *.

Section MapLemmas.

Lemma deepUnion_snoc layers (m : gmap string value) :
  deepUnion (layers ++ [m]) = m ∪ deepUnion layers.
Proof. unfold deepUnion. by rewrite foldl_app. Qed.

Lemma deepUnion_nil : deepUnion [] = ∅.
Proof. done. Qed.

Lemma contents_app_valid (h h' : Heap) m :
  validRef h m → contents (h ++ h') m = contents h m.
Proof.
  destruct m as [r|]; simpl; [|done].
  intros Hr. by rewrite lookup_app_l.
Qed.

Lemma validRef_app (h h' : Heap) m : validRef h m → validRef (h ++ h') m.
Proof. destruct m; simpl; [|done]. rewrite length_app. lia. Qed.

(** The loop [for key, val := range src { dst[key] = val }] leaves in [dst]
    the entries of [src] laid over those [dst] had, whatever the order of
    the iteration. *)
Lemma forRange_assign (kvs : list (string * value)) d s :
  d < length (maps s) →
  NoDup kvs.*1 →
  forRange kvs (λ kv, mapAssign (Some d) kv.1 kv.2) s =
    Ok tt (mkState (loggers s)
             (<[d := list_to_map kvs ∪ default ∅ (maps s !! d)]> (maps s))
             (stdout s)).
Proof.
  revert s. induction kvs as [|[k v] kvs IH]; intros s Hd Hnd.
  - simpl. unfold_monad. f_equal. destruct s as [ls h o]; simpl in *.
    f_equal. rewrite (left_id_L ∅ (∪)).
    destruct (lookup_lt_is_Some_2 h d Hd) as [c Hc].
    rewrite Hc. simpl. symmetry. by apply list_insert_id.
  - apply NoDup_cons in Hnd as [Hk Hnd]. simpl.
    unfold_monad. unfold mapAssign at 1, liftHeap, heapAssign. simpl.
    rewrite IH; simpl; [|by rewrite length_insert|done].
    f_equal. f_equal. rewrite list_insert_insert_eq.
    rewrite list_lookup_insert_eq by done. simpl.
    f_equal. rewrite <- insert_union_l.
    rewrite <- insert_union_r; [done|].
    by apply not_elem_of_list_to_map_1.
Qed.

Lemma rangeAssign_spec src d s :
  d < length (maps s) →
  rangeAssign src (Some d) s =
    Ok tt (mkState (loggers s)
             (<[d := contents (maps s) src ∪ contents (maps s) (Some d)]>
                (maps s))
             (stdout s)).
Proof.
  intros Hd. unfold rangeAssign, readMap. unfold_monad.
  rewrite forRange_assign; [|done|apply NoDup_fst_map_to_list].
  by rewrite list_to_map_to_list.
Qed.

End MapLemmas.

Section MergeFields.

(** The range loop, when its target is the map allocated last. *)
Lemma rangeAssign_last ls (h : Heap) c o src :
  validRef h src →
  rangeAssign src (Some (length h)) (mkState ls (h ++ [c]) o) =
    Ok tt (mkState ls (h ++ [contents h src ∪ c]) o).
Proof.
  intros Hsrc. rewrite rangeAssign_spec; simpl.
  - f_equal. f_equal.
    rewrite insert_app_r_alt by lia. rewrite Nat.sub_diag. simpl.
    rewrite contents_app_valid by done.
    rewrite lookup_app_r by lia. by rewrite Nat.sub_diag.
  - rewrite length_app. simpl. lia.
Qed.

Lemma ancestry_last ls l path :
  ancestry ls l path → ∃ path', path = path' ++ [l].
Proof. destruct 1; [by exists []|by eexists]. Qed.

Lemma ancestry_lookup ls l path : ancestry ls l path → is_Some (ls !! l).
Proof. destruct 1; eauto. Qed.

Lemma layers_app_valid ls (h h' : Heap) o path :
  (∀ i lg, ls !! i = Some lg → validRef h (EventFields lg)) →
  layers (mkState ls (h ++ h') o) path = layers (mkState ls h o) path.
Proof.
  intros Hv. unfold layers. apply list_fmap_ext. intros _ i _.
  unfold eventFieldsOf. simpl. destruct (ls !! i) as [lg|] eqn:E; [|done].
  apply contents_app_valid. eauto.
Qed.

(** What [mergeFields] computes.  The call allocates one map per node of
    the chain, the last of which it fills and answers; no map that existed
    before is written. *)
Lemma mergeFields_spec ls l path :
  ancestry ls l path →
  ∀ fuel (h : Heap) o fields,
    length path ≤ fuel →
    (∀ i lg, ls !! i = Some lg → validRef h (EventFields lg)) →
    validRef h fields →
    ∃ g : Heap,
      mergeFields fuel l fields (mkState ls h o) =
        Ok (Some (length (h ++ g)))
           (mkState ls
              (h ++ g ++
                 [contents h fields ∪ deepUnion (layers (mkState ls h o) path)])
              o).
Proof.
  induction 1 as [l lg Hl Hp|l lg p path Hl Hp Hanc IH];
    intros fuel h o fields Hfuel Hv Hf.
  - destruct fuel as [|fuel]; [simpl in Hfuel; lia|].
    exists []. simpl. unfold_monad. unfold getLogger, makeMap. simpl.
    rewrite Hl, Hp. simpl.
    rewrite rangeAssign_last by eauto.
    rewrite rangeAssign_last by done.
    rewrite app_nil_r. do 3 f_equal.
    unfold eventFieldsOf, deepUnion. simpl. by rewrite Hl.
  - rewrite length_app in Hfuel. simpl in Hfuel.
    destruct fuel as [|fuel]; [lia|].
    destruct (ancestry_lookup _ _ _ Hanc) as [pl Hpl].
    destruct (IH fuel (h ++ [∅]) o (EventFields pl)) as [g Hg].
    { lia. }
    { intros i lg' Hi. apply validRef_app. eauto. }
    { apply validRef_app. eauto. }
    exists (∅ :: g). simpl. unfold_monad. unfold getLogger, makeMap. simpl.
    rewrite Hl. simpl. rewrite Hp. simpl. rewrite Hpl. simpl. rewrite Hg.
    rewrite (assoc_L (++) (h ++ [∅]) g).
    rewrite rangeAssign_last.
    2:{ do 2 apply validRef_app. eauto. }
    rewrite rangeAssign_last.
    2:{ by do 2 apply validRef_app. }
    rewrite <- !(assoc_L (++)). simpl. do 3 f_equal.
    rewrite !(contents_app_valid h) by eauto.
    rewrite layers_app_valid by done.
    unfold layers at 2. rewrite fmap_app. simpl. rewrite deepUnion_snoc.
    fold (layers (mkState ls h o) path).
    f_equal. f_equal.
    destruct (ancestry_last _ _ _ Hanc) as [path' ->].
    unfold layers. rewrite fmap_app. simpl. rewrite deepUnion_snoc.
    unfold eventFieldsOf. simpl. rewrite Hl, Hpl.
    by rewrite (assoc_L (∪) (contents h (EventFields pl))), (idemp_L (∪)).
Qed.

End MergeFields.

Section Ancestry.

Lemma ancestry_elems ls l path :
  ancestry ls l path → ∀ i, i ∈ path → is_Some (ls !! i).
Proof.
  induction 1 as [l lg Hl _|l lg p path Hl _ _ IH]; intros i Hi.
  - apply list_elem_of_singleton in Hi as ->. eauto.
  - apply elem_of_app in Hi as [Hi|Hi]; [by apply IH|].
    apply list_elem_of_singleton in Hi as ->. eauto.
Qed.

Lemma ancestry_unique ls l path1 :
  ancestry ls l path1 → ∀ path2, ancestry ls l path2 → path1 = path2.
Proof.
  induction 1 as [l lg Hl Hp|l lg p path Hl Hp _ IH]; intros path2 H2;
    destruct H2 as [l lg2 Hl2 Hp2|l lg2 p2 path2 Hl2 Hp2 H2];
    simplify_eq; try done.
  f_equal. by apply IH.
Qed.

(** A chain of a longer table that stays inside the shorter one is a chain
    of the shorter one, and conversely. *)
Lemma ancestry_app ls ls' l path :
  ancestry ls l path → ancestry (ls ++ ls') l path.
Proof.
  induction 1 as [l lg Hl Hp|l lg p path Hl Hp _ IH].
  - eapply ancestry_root; [|done]. by apply lookup_app_l_Some.
  - eapply ancestry_child; [|done|done]. by apply lookup_app_l_Some.
Qed.

Lemma ancestry_ext ls ls' l path :
  ancestry ls l path →
  (∀ i lg, ls !! i = Some lg →
     ∃ lg', ls' !! i = Some lg' ∧ Parent lg' = Parent lg) →
  ancestry ls' l path.
Proof.
  intros Hanc Hext.
  induction Hanc as [l lg Hl Hp|l lg p path Hl Hp _ IH].
  - destruct (Hext _ _ Hl) as (lg' & Hl' & Hp').
    eapply ancestry_root; [exact Hl'|by rewrite Hp'].
  - destruct (Hext _ _ Hl) as (lg' & Hl' & Hp').
    eapply ancestry_child; [exact Hl'|by rewrite Hp'|done].
Qed.

(** In a well-formed store every logger has a chain, no longer than the
    number of loggers up to it. *)
Lemma wf_ancestry s :
  wf s → ∀ l, is_Some (loggers s !! l) →
  ∃ path, ancestry (loggers s) l path ∧ length path ≤ S l.
Proof.
  intros Hwf l. induction (lt_wf l) as [l _ IH]. intros [lg Hl].
  destruct (Parent lg) as [p|] eqn:Hp.
  - destruct (Hwf _ _ Hl) as [Hlt _]. specialize (Hlt _ Hp).
    destruct (IH p Hlt) as (path & Hpath & Hlen).
    { apply lookup_lt_is_Some_2. apply lookup_lt_Some in Hl. lia. }
    exists (path ++ [l]). split; [by eapply ancestry_child|].
    rewrite length_app. simpl. lia.
  - exists [l]. split; [by eapply ancestry_root|]. simpl. lia.
Qed.

Lemma wf_validRef s i lg :
  wf s → loggers s !! i = Some lg → validRef (maps s) (EventFields lg).
Proof. intros Hwf Hi. by destruct (Hwf _ _ Hi). Qed.

(** [mergeFields] on a well-formed store, with the fuel the callers give. *)
Lemma mergeFields_wf s l fields path :
  wf s → ancestry (loggers s) l path → validRef (maps s) fields →
  ∃ g : Heap,
    mergeFields (length (loggers s)) l fields s =
      Ok (Some (length (maps s ++ g)))
         (mkState (loggers s)
            (maps s ++ g ++
               [contents (maps s) fields ∪ deepUnion (layers s path)])
            (stdout s)).
Proof.
  intros Hwf Hanc Hf. destruct s as [ls h o]. simpl in *.
  apply mergeFields_spec; [done| |by intros; eapply (wf_validRef (mkState ls h o))|done].
  destruct (ancestry_lookup _ _ _ Hanc) as [lg Hl].
  destruct (wf_ancestry _ Hwf l) as (path' & Hanc' & Hlen); [by eexists|].
  simpl in *. rewrite (ancestry_unique _ _ _ Hanc _ Hanc').
  apply lookup_lt_Some in Hl. lia.
Qed.

End Ancestry.

Section Composite.

Lemma sameExcept_refl m h : sameExcept m h h.
Proof. by split. Qed.

Lemma sameExcept_trans m h1 h2 h3 :
  sameExcept m h1 h2 → sameExcept m h2 h3 → sameExcept m h1 h3.
Proof.
  intros [L1 E1] [L2 E2]. split; [congruence|].
  intros j Hj. rewrite E2, E1; done.
Qed.

Lemma compositeLoop_frame kvs data h :
  match forRange kvs (compositeStep data) h with
  | Ok _ h' => sameExcept (target data) h h'
  | Panic _ h' => h' = h ∧ ∀ m, data ≠ VMap m
  | Diverged => False
  end.
Proof.
  revert h. induction kvs as [|[k f] kvs IH]; intros h; simpl.
  { unfold_monad. apply sameExcept_refl. }
  unfold_monad. destruct data as [| | | |m]; simpl; try done.
  destruct (contents h m !! k) as [val|] eqn:Hk; [|apply IH].
  destruct m as [r|]; simpl in *; [|done].
  unfold heapAssign.
  specialize (IH (<[r:=<[k:=f val]> (default ∅ (h !! r))]> h)).
  destruct (forRange kvs _ _) as [[] h'|msg h'|]; try done.
  - eapply sameExcept_trans; [|done]. split; [by rewrite length_insert|].
    intros j Hj. rewrite list_lookup_insert_ne; [done|congruence].
  - by destruct IH as (_ & Hm); destruct (Hm (Some r)).
Qed.

(** The installed closure answers its argument; it writes to no map but
    the one it is handed, and it panics only when its table is not empty
    and its argument is not a map. *)
Lemma compositeSerializer_frame tbl data h :
  match compositeSerializer tbl data h with
  | Ok v h' => v = data ∧ sameExcept (target data) h h'
  | Panic _ h' => h' = h ∧ tbl ≠ ∅ ∧ ∀ m, data ≠ VMap m
  | Diverged => False
  end.
Proof.
  unfold compositeSerializer. unfold_monad.
  destruct (decide (tbl = ∅)) as [->|Hne].
  { rewrite map_to_list_empty. simpl. split; [done|apply sameExcept_refl]. }
  pose proof (compositeLoop_frame (map_to_list tbl) data h) as H.
  destruct (forRange _ _ _) as [[] h'|msg h'|]; try done.
  by destruct H as (-> & Hm).
Qed.

Lemma compositeSerializer_string tbl str h :
  compositeSerializer tbl (VString str) h =
    if decide (tbl = ∅) then Ok (VString str) h
    else Panic "interface conversion: interface {} is not map[string]interface {}" h.
Proof.
  unfold compositeSerializer. unfold_monad. case_decide as Ht.
  - subst. by rewrite map_to_list_empty.
  - destruct (map_to_list tbl) as [|[k f] kvs] eqn:E.
    + by apply map_to_list_empty_iff in E.
    + done.
Qed.

End Composite.

Section LogRuns.

Lemma contents_last (h : Heap) c : contents (h ++ [c]) (Some (length h)) = c.
Proof. simpl. rewrite lookup_app_r by lia. by rewrite Nat.sub_diag. Qed.

Lemma encode_run w entry ls (h : Heap) c o :
  Fields entry = Some (length h) →
  encode w entry (mkState ls (h ++ [c]) o) =
    Ok tt (mkState ls (h ++ [c]) (o ++ [report w entry c])).
Proof.
  intros Hf. unfold encode, readMap, report. unfold_monad. simpl.
  rewrite Hf, contents_last. by destruct (w entry c).
Qed.

Lemma Log_disabled now l level message fields s lg :
  loggers s !! l = Some lg → isEnabled lg level = false →
  Log now l level message fields s = Ok tt s.
Proof.
  intros Hl Hen. unfold Log, getLogger. unfold_monad. by rewrite Hl, Hen.
Qed.

Lemma Log_plain now l level message fields s lg path :
  wf s → loggers s !! l = Some lg → ancestry (loggers s) l path →
  validRef (maps s) fields →
  isEnabled lg level = true → Serializer lg = None →
  ∃ g : Heap,
    let merged := mergedFields s path fields in
    let entry := mkLogEntry now message level (Some (length (maps s ++ g))) in
    Log now l level message fields s =
      Ok tt (mkState (loggers s) (maps s ++ g ++ [merged])
               (stdout s ++ [report (Writer lg) entry merged])).
Proof.
  intros Hwf Hl Hanc Hf Hen Hser.
  destruct (mergeFields_wf s l fields path Hwf Hanc Hf) as [g Hg].
  exists g. simpl. unfold Log, getLogger, chainBound. unfold_monad.
  rewrite Hl, Hen, Hg, Hser. rewrite (assoc_L (++)).
  rewrite encode_run by done. by rewrite <- (assoc_L (++)).
Qed.

Lemma Log_composite_empty now l level message fields s lg path :
  wf s → loggers s !! l = Some lg → ancestry (loggers s) l path →
  validRef (maps s) fields →
  isEnabled lg level = true →
  Serializer lg = Some (compositeSerializer ∅) →
  ∃ g : Heap,
    let merged := mergedFields s path fields in
    let entry := mkLogEntry now message level (Some (length (maps s ++ g))) in
    Log now l level message fields s =
      Ok tt (mkState (loggers s) (maps s ++ g ++ [merged])
               (stdout s ++ [report (Writer lg) entry merged])).
Proof.
  intros Hwf Hl Hanc Hf Hen Hser.
  destruct (mergeFields_wf s l fields path Hwf Hanc Hf) as [g Hg].
  exists g. simpl. unfold Log, getLogger, chainBound. unfold_monad.
  rewrite Hl, Hen, Hg, Hser. rewrite (assoc_L (++)).
  unfold serializeEntry, getLogger, liftHeap. unfold_monad. simpl.
  rewrite Hl, Hser. unfold compositeSerializer. unfold_monad.
  rewrite map_to_list_empty. simpl.
  rewrite encode_run by done. by rewrite <- (assoc_L (++)).
Qed.

(** The defect of [WithSerializers]: its closure asserts that its argument
    is a map, and [serializeEntry] hands it the message first. *)
Lemma Log_composite_panic now l level message fields s lg path tbl :
  wf s → loggers s !! l = Some lg → ancestry (loggers s) l path →
  validRef (maps s) fields →
  isEnabled lg level = true →
  Serializer lg = Some (compositeSerializer tbl) → tbl ≠ ∅ →
  ∃ g : Heap,
    Log now l level message fields s =
      Panic "interface conversion: interface {} is not map[string]interface {}"
        (mkState (loggers s) (maps s ++ g ++ [mergedFields s path fields])
           (stdout s)).
Proof.
  intros Hwf Hl Hanc Hf Hen Hser Hne.
  destruct (mergeFields_wf s l fields path Hwf Hanc Hf) as [g Hg].
  exists g. unfold Log, getLogger, chainBound. unfold_monad.
  rewrite Hl, Hen, Hg, Hser.
  unfold serializeEntry, getLogger, liftHeap. unfold_monad. simpl.
  rewrite Hl, Hser. rewrite compositeSerializer_string.
  by rewrite decide_False.
Qed.

End LogRuns.

Section CreationRuns.

Variable jsonStdout : Encoder.

Lemma lookup_snoc {A} (xs : list A) x : (xs ++ [x]) !! length xs = Some x.
Proof. rewrite lookup_app_r by lia. by rewrite Nat.sub_diag. Qed.

Lemma insert_snoc {A} (xs : list A) x y :
  <[length xs := y]> (xs ++ [x]) = xs ++ [y].
Proof. rewrite insert_app_r_alt by lia. by rewrite Nat.sub_diag. Qed.

Lemma GenerateLogger_run s :
  GenerateLogger jsonStdout s =
    Ok (length (loggers s))
       (mkState
          (loggers s ++
             [mkLogger "info" jsonStdout None [] (Some (length (maps s))) None])
          (maps s ++ [∅]) (stdout s)).
Proof. done. Qed.

Lemma layers_ext s s' path :
  (∀ i, i ∈ path → eventFieldsOf s' i = eventFieldsOf s i) →
  layers s' path = layers s path.
Proof.
  intros H. unfold layers. apply list_fmap_ext. intros k i Hk.
  apply H. by eapply list_elem_of_lookup_2.
Qed.

Lemma Child_run s l lg path fields :
  wf s → loggers s !! l = Some lg → ancestry (loggers s) l path →
  validRef (maps s) fields →
  ∃ g : Heap,
    Child jsonStdout l fields s =
      Ok (length (loggers s))
         (childState jsonStdout s l lg g (mergedFields s path fields) None).
Proof.
  intros Hwf Hl Hanc Hf. destruct s as [ls h o]. simpl in *.
  pose proof (lookup_lt_Some _ _ _ Hl) as Hlt.
  set (c2 := mkLogger (Level lg) jsonStdout (Some l) [] (Some (length h)) None).
  set (s2 := mkState (ls ++ [c2]) (h ++ [∅]) o).
  assert (wf s2) as Hwf2.
  { intros i lgi Hi. simpl in Hi.
    destruct (decide (i = length ls)) as [->|Hne].
    - rewrite lookup_snoc in Hi. simplify_eq. simpl. split.
      + intros p [= <-]. done.
      + rewrite length_app. simpl. lia.
    - rewrite lookup_app_l in Hi.
      2:{ apply lookup_lt_Some in Hi. rewrite length_app in Hi. simpl in Hi. lia. }
      destruct (Hwf _ _ Hi) as [Hp Hv]. split; [done|].
      by apply validRef_app. }
  destruct (mergeFields_wf s2 l fields path Hwf2) as [g Hg].
  { by apply ancestry_app. }
  { by apply validRef_app. }
  exists g. unfold Child. unfold GenerateLogger, newLogger, makeMap.
  unfold getLogger, setLogger, chainBound. unfold_monad. simpl.
  rewrite (lookup_app_l_Some _ _ _ _ Hl). simpl.
  rewrite lookup_snoc. simpl. rewrite insert_snoc, lookup_snoc. simpl.
  rewrite insert_snoc. fold c2. fold s2.
  replace (length (ls ++ [c2])) with (length (loggers s2)) by done.
  rewrite Hg. simpl. rewrite lookup_snoc, insert_snoc. simpl.
  rewrite (lookup_app_l_Some _ _ _ _ Hl). simpl.
  unfold childState. simpl. f_equal. f_equal.
  - by rewrite <- !(assoc_L (++)).
  - rewrite <- !(assoc_L (++)). simpl. do 3 f_equal.
    unfold mergedFields. simpl. rewrite contents_app_valid by done.
    rewrite (layers_ext (mkState ls h o) s2 path); [done|]. intros i Hi.
    destruct (ancestry_elems _ _ _ Hanc i Hi) as [lgi Hlgi].
    unfold eventFieldsOf. simpl.
    rewrite (lookup_app_l_Some _ _ _ _ Hlgi), Hlgi.
    apply contents_app_valid. by destruct (Hwf _ _ Hlgi).
Qed.

Lemma childState_lookup_l s l lg g merged ser :
  loggers s !! l = Some lg →
  loggers (childState jsonStdout s l lg g merged ser) !! l =
    Some (addChild lg (length (loggers s))).
Proof.
  intros Hl. simpl. apply list_lookup_insert_eq.
  rewrite length_app. apply lookup_lt_Some in Hl. lia.
Qed.

Lemma childState_lookup_child s l lg g merged ser :
  loggers s !! l = Some lg →
  loggers (childState jsonStdout s l lg g merged ser) !! length (loggers s) =
    Some (mkLogger (Level lg) jsonStdout (Some l) []
            (Some (length (maps s ++ [∅] ++ g))) ser).
Proof.
  intros Hl. simpl. apply lookup_lt_Some in Hl.
  rewrite list_lookup_insert_ne by lia. apply lookup_snoc.
Qed.

Lemma childState_lookup_old s l lg g merged ser i lgi :
  loggers s !! l = Some lg → loggers s !! i = Some lgi → i ≠ l →
  loggers (childState jsonStdout s l lg g merged ser) !! i = Some lgi.
Proof.
  intros Hl Hi Hne. simpl. rewrite list_lookup_insert_ne by done.
  by apply lookup_app_l_Some.
Qed.

(** Setting the serializer of the new child. *)
Lemma childState_setSerializer s l lg g merged ser ser' :
  loggers s !! l = Some lg →
  setLogger (length (loggers s))
    (λ c, mkLogger (Level c) (Writer c) (Parent c) (Children c)
            (EventFields c) ser')
    (childState jsonStdout s l lg g merged ser) =
  Ok tt (childState jsonStdout s l lg g merged ser').
Proof.
  intros Hl. unfold setLogger.
  rewrite (childState_lookup_child _ _ _ _ _ _ Hl). simpl.
  apply lookup_lt_Some in Hl.
  rewrite list_insert_insert_ne by lia. by rewrite insert_snoc.
Qed.

Lemma WithFields_run s l lg path fields :
  wf s → loggers s !! l = Some lg → ancestry (loggers s) l path →
  validRef (maps s) fields →
  ∃ g : Heap,
    WithFields jsonStdout l fields s =
      Ok (length (loggers s))
         (childState jsonStdout s l lg g (mergedFields s path fields)
            (Serializer lg)).
Proof.
  intros Hwf Hl Hanc Hf.
  destruct (Child_run s l lg path fields Hwf Hl Hanc Hf) as [g Hg].
  exists g. unfold WithFields. unfold_monad. rewrite Hg.
  unfold getLogger at 1. rewrite (childState_lookup_l _ _ _ _ _ _ Hl).
  by rewrite childState_setSerializer.
Qed.

Lemma WithSerializers_run s l lg path tbl :
  wf s → loggers s !! l = Some lg → ancestry (loggers s) l path →
  ∃ g : Heap,
    WithSerializers jsonStdout l tbl s =
      Ok (length (loggers s))
         (childState jsonStdout s l lg g (mergedFields s path None)
            (Some (compositeSerializer tbl))).
Proof.
  intros Hwf Hl Hanc.
  destruct (Child_run s l lg path None Hwf Hl Hanc I) as [g Hg].
  exists g. unfold WithSerializers. unfold_monad. rewrite Hg.
  by rewrite childState_setSerializer.
Qed.

End CreationRuns.

(** ** Invariants of the stores the API builds *)

Section Transitions.

Variable jsonStdout : Encoder.

Lemma transition_extends s s' :
  wf s → transition jsonStdout s s' → extends s s'.
Proof.
  intros Hwf [g evs| |l lg path fields g ser Hl Hanc Hf Hser] i lgi Hi.
  - exists lgi. simpl. split_and!; try done.
    apply contents_app_valid. by eapply wf_validRef.
  - exists lgi. simpl. split_and!; try done.
    + by apply lookup_app_l_Some.
    + apply contents_app_valid. by eapply wf_validRef.
  - pose proof (wf_validRef _ _ _ Hwf Hi) as Hv.
    destruct (decide (i = l)) as [->|Hne].
    + simplify_eq. eexists. split; [by apply childState_lookup_l|].
      simpl. split_and!; try done. by apply contents_app_valid.
    + exists lgi. split; [by apply childState_lookup_old|].
      simpl. split_and!; try done. by apply contents_app_valid.
Qed.

Lemma transition_length s s' i :
  transition jsonStdout s s' → is_Some (loggers s' !! i) →
  is_Some (loggers s !! i) ∨ i = length (loggers s).
Proof.
  intros Htr Hi. apply lookup_lt_is_Some in Hi.
  destruct (decide (i < length (loggers s))) as [Hlt|Hge].
  { left. by apply lookup_lt_is_Some. }
  right. destruct Htr; simpl in Hi.
  - lia.
  - rewrite length_app in Hi. simpl in Hi. lia.
  - rewrite length_insert, length_app in Hi. simpl in Hi. lia.
Qed.

Lemma extends_eventFieldsOf s s' i :
  extends s s' → is_Some (loggers s !! i) →
  eventFieldsOf s' i = eventFieldsOf s i.
Proof.
  intros Hext [lg Hi]. destruct (Hext _ _ Hi) as (lg' & Hi' & _ & _ & _ & _ & Hc).
  unfold eventFieldsOf. by rewrite Hi, Hi'.
Qed.

Lemma extends_ancestry s s' l path :
  extends s s' → ancestry (loggers s) l path → ancestry (loggers s') l path.
Proof.
  intros Hext Hanc. eapply ancestry_ext; [done|].
  intros i lg Hi. destruct (Hext _ _ Hi) as (lg' & Hi' & _ & Hp & _). eauto.
Qed.

Lemma extends_layers s s' l path :
  extends s s' → ancestry (loggers s) l path → layers s' path = layers s path.
Proof.
  intros Hext Hanc. apply layers_ext. intros i Hi.
  apply extends_eventFieldsOf; [done|]. by eapply ancestry_elems.
Qed.

Lemma transition_wf s s' : wf s → transition jsonStdout s s' → wf s'.
Proof.
  intros Hwf Htr i lgi' Hi'.
  pose proof (transition_extends _ _ Hwf Htr) as Hext.
  assert (length (maps s) ≤ length (maps s')) as Hlen.
  { destruct Htr; simpl; rewrite ?length_app; lia. }
  destruct (transition_length _ _ i Htr) as [[lgi Hi]| ->]; [by eexists| |].
  - destruct (Hext _ _ Hi) as (lg' & Hi2 & _ & Hp & _ & He & _).
    simplify_eq. destruct (Hwf _ _ Hi) as [Hpar Hv]. split.
    + intros p Hp'. apply Hpar. congruence.
    + rewrite He. destruct (EventFields lgi); simpl in *; lia.
  - destruct Htr as [g evs| |l lg path fields g ser Hl Hanc Hf Hser].
    + apply lookup_lt_Some in Hi'. simpl in Hi'. lia.
    + simpl in Hi'. rewrite lookup_snoc in Hi'. simplify_eq. simpl.
      split; [done|]. rewrite length_app. simpl. lia.
    + rewrite (childState_lookup_child _ _ _ _ _ _ _ Hl) in Hi'.
      simplify_eq. simpl. split.
      * intros p [= <-]. by apply lookup_lt_Some in Hl.
      * rewrite !length_app. simpl. rewrite !length_app. simpl. lia.
Qed.

Lemma transition_apiBuilt s s' :
  wf s → apiBuilt s → transition jsonStdout s s' → apiBuilt s'.
Proof.
  intros Hwf Hapi Htr i lgi' Hi'.
  pose proof (transition_extends _ _ Hwf Htr) as Hext.
  destruct (transition_length _ _ i Htr) as [[lgi Hi]| ->]; [by eexists| |].
  - destruct (Hext _ _ Hi) as (lg' & Hi2 & _ & _ & Hs & _).
    simplify_eq. rewrite Hs. by eapply Hapi.
  - destruct Htr as [g evs| |l lg path fields g ser Hl Hanc Hf Hser].
    + apply lookup_lt_Some in Hi'. simpl in Hi'. lia.
    + simpl in Hi'. rewrite lookup_snoc in Hi'. simplify_eq. by left.
    + rewrite (childState_lookup_child _ _ _ _ _ _ _ Hl) in Hi'.
      by simplify_eq.
Qed.

Lemma childState_eventFieldsOf s l lg g merged ser :
  loggers s !! l = Some lg →
  eventFieldsOf (childState jsonStdout s l lg g merged ser)
    (length (loggers s)) = merged.
Proof.
  intros Hl. unfold eventFieldsOf.
  rewrite (childState_lookup_child _ _ _ _ _ _ _ Hl).
  cbn [EventFields childState maps].
  rewrite !(assoc_L (++)). rewrite <- (assoc_L (++) (maps s)).
  apply contents_last.
Qed.

Lemma transition_frozen s s' :
  wf s → frozen s → transition jsonStdout s s' → frozen s'.
Proof.
  intros Hwf Hfr Htr i lgi' p path' Hi' Hp' Hanc'.
  pose proof (transition_extends _ _ Hwf Htr) as Hext.
  destruct (transition_length _ _ i Htr) as [[lgi Hi]| ->]; [by eexists| |].
  - destruct (Hext _ _ Hi) as (lg' & Hi2 & _ & Hp & _). simplify_eq.
    rewrite Hp in Hp'.
    destruct (Hwf _ _ Hi) as [Hpar _]. specialize (Hpar _ Hp').
    destruct (wf_ancestry s Hwf p) as (path & Hanc & _).
    { apply lookup_lt_is_Some. apply lookup_lt_Some in Hi. lia. }
    pose proof (extends_ancestry _ _ _ _ Hext Hanc) as Hanc2.
    rewrite (ancestry_unique _ _ _ Hanc' _ Hanc2).
    rewrite (extends_layers _ _ _ _ Hext Hanc).
    rewrite (extends_eventFieldsOf s s') by eauto.
    by eapply Hfr.
  - destruct Htr as [g evs| |l lg path fields g ser Hl Hanc Hf Hser].
    + apply lookup_lt_Some in Hi'. simpl in Hi'. lia.
    + simpl in Hi'. rewrite lookup_snoc in Hi'. by simplify_eq.
    + rewrite (childState_lookup_child _ _ _ _ _ _ _ Hl) in Hi'.
      simplify_eq. simpl in Hp'. simplify_eq.
      pose proof (extends_ancestry _ _ _ _ Hext Hanc) as Hanc2.
      rewrite (ancestry_unique _ _ _ Hanc' _ Hanc2).
      rewrite (extends_layers _ _ _ _ Hext Hanc).
      rewrite childState_eventFieldsOf by done.
      unfold mergedFields. rewrite dom_union. set_solver.
Qed.

End Transitions.

(** ** Calls and reachable stores *)

Section Reachable.

Variable jsonStdout : Encoder.

Lemma inv_init : inv (mkState [] [] []).
Proof. split_and!; intros i lg; simpl; by rewrite lookup_nil. Qed.

Lemma transition_inv s s' : inv s → transition jsonStdout s s' → inv s'.
Proof.
  intros (Hwf & Hapi & Hfr) Htr. split_and!.
  - by eapply transition_wf.
  - by eapply transition_apiBuilt.
  - by eapply transition_frozen.
Qed.

Lemma after_det {A} (r : res State A) s1 s2 :
  after r s1 → after r s2 → s1 = s2.
Proof. destruct r; simpl; [by intros -> ->..|done]. Qed.

Lemma tr_same s : transition jsonStdout s s.
Proof.
  pose proof (tr_grow jsonStdout s [] []) as H.
  destruct s as [ls h o]. simpl in H. by rewrite !app_nil_r in H.
Qed.

Lemma tr_log s g (c : gmap string value) evs :
  transition jsonStdout s
    (mkState (loggers s) (maps s ++ g ++ [c]) (stdout s ++ evs)).
Proof. apply (tr_grow jsonStdout s (g ++ [c]) evs). Qed.

(** Every call on a well-formed, API-built store ends, and takes one of the
    three shapes of [transition]. *)
Lemma run_transition s c :
  wf s → apiBuilt s → argsOk s c →
  ∃ s', after (run jsonStdout c s) s' ∧ transition jsonStdout s s'.
Proof.
  intros Hwf Hapi Hargs.
  destruct c as [m| |l fields|l fields|l tbl|now l level message fields];
    simpl in Hargs.
  - eexists. split; [done|].
    pose proof (tr_grow jsonStdout s [m] []) as H.
    by rewrite app_nil_r in H.
  - unfold run. unfold_monad. rewrite GenerateLogger_run.
    eexists. split; [reflexivity|]. apply tr_root.
  - destruct Hargs as [[lg Hl] Hf].
    destruct (wf_ancestry s Hwf l) as (path & Hanc & _); [by eexists|].
    destruct (Child_run jsonStdout s l lg path fields) as [g Hg]; try done.
    eexists. split.
    + simpl. unfold_monad. rewrite Hg. simpl. reflexivity.
    + eapply tr_child; try done. by left.
  - destruct Hargs as [[lg Hl] Hf].
    destruct (wf_ancestry s Hwf l) as (path & Hanc & _); [by eexists|].
    destruct (WithFields_run jsonStdout s l lg path fields) as [g Hg];
      try done.
    eexists. split.
    + simpl. unfold_monad. rewrite Hg. simpl. reflexivity.
    + eapply tr_child; try done. by eapply Hapi.
  - destruct Hargs as [lg Hl].
    destruct (wf_ancestry s Hwf l) as (path & Hanc & _); [by eexists|].
    destruct (WithSerializers_run jsonStdout s l lg path tbl) as [g Hg];
      try done.
    eexists. split.
    + simpl. unfold_monad. rewrite Hg. simpl. reflexivity.
    + eapply tr_child; try done. right. by eexists.
  - destruct Hargs as [[lg Hl] Hf].
    destruct (wf_ancestry s Hwf l) as (path & Hanc & _); [by eexists|].
    simpl. destruct (isEnabled lg level) eqn:Hen.
    2:{ exists s. rewrite (Log_disabled _ _ _ _ _ _ lg) by done.
        split; [done|apply tr_same]. }
    destruct (Hapi _ _ Hl) as [Hser|[tbl Hser]].
    + destruct (Log_plain now l level message fields s lg path) as [g Hg];
        try done.
      simpl in Hg. rewrite Hg. eexists. split; [done|apply tr_log].
    + destruct (decide (tbl = ∅)) as [->|Hne].
      * destruct (Log_composite_empty now l level message fields s lg path)
          as [g Hg]; try done.
        simpl in Hg. rewrite Hg. eexists. split; [done|apply tr_log].
      * destruct (Log_composite_panic now l level message fields s lg path tbl)
          as [g Hg]; try done.
        rewrite Hg. eexists. split; [done|].
        pose proof (tr_log s g (mergedFields s path fields) []) as H.
        by rewrite app_nil_r in H.
Qed.

Lemma reachable_inv s : reachable jsonStdout s → inv s.
Proof.
  induction 1 as [|s c s' _ IH Hargs Hafter]; [apply inv_init|].
  destruct IH as (Hwf & Hapi & Hfr).
  destruct (run_transition s c Hwf Hapi Hargs) as (s'' & Hafter' & Htr).
  rewrite (after_det _ _ _ Hafter Hafter').
  by eapply transition_inv.
Qed.

End Reachable.

Section SerializerOnMaps.

(** What the closure of [WithSerializers] does when it is handed a map: for
    every key of the map that its table knows, the value is replaced by its
    transform, in place; other keys keep their values. *)
Lemma compositeLoop_map (kvs : list (string * (value → value))) r :
  NoDup kvs.*1 →
  ∀ (h : Heap) c, h !! r = Some c →
  ∃ c' : gmap string value,
    forRange kvs (compositeStep (VMap (Some r))) h = Ok tt (<[r := c']> h) ∧
    ∀ k, c' !! k =
         match (list_to_map kvs : gmap string (value → value)) !! k with
         | Some f => f <$> c !! k
         | None => c !! k
         end.
Proof.
  induction kvs as [|[k0 f0] kvs IH]; intros Hnd h c Hr.
  - exists c. split; [|done]. simpl. unfold_monad.
    by rewrite list_insert_id.
  - apply NoDup_cons in Hnd as [Hk0 Hnd]. simpl in Hk0.
    apply (not_elem_of_list_to_map_1 (M:=gmap string)) in Hk0.
    simpl. unfold_monad. simpl. rewrite Hr. simpl.
    destruct (c !! k0) as [val|] eqn:Hc.
    + destruct (IH Hnd (<[r:=<[k0:=f0 val]> c]> h) (<[k0:=f0 val]> c))
        as (c' & Hrun & Hc').
      { apply list_lookup_insert_eq. by eapply lookup_lt_Some. }
      exists c'. rewrite Hrun, list_insert_insert_eq. split; [done|].
      intros k. rewrite Hc'. destruct (decide (k = k0)) as [->|Hne].
      * by rewrite Hk0, !lookup_insert_eq, Hc.
      * by rewrite !lookup_insert_ne.
    + destruct (IH Hnd h c Hr) as (c' & Hrun & Hc').
      exists c'. split; [done|].
      intros k. rewrite Hc'. destruct (decide (k = k0)) as [->|Hne].
      * by rewrite Hk0, lookup_insert_eq, Hc.
      * by rewrite lookup_insert_ne.
Qed.

Lemma compositeSerializer_map tbl r (h : Heap) c :
  h !! r = Some c →
  ∃ c' : gmap string value,
    compositeSerializer tbl (VMap (Some r)) h =
      Ok (VMap (Some r)) (<[r := c']> h) ∧
    ∀ k, c' !! k =
         match tbl !! k with
         | Some f => f <$> c !! k
         | None => c !! k
         end.
Proof.
  intros Hr.
  destruct (compositeLoop_map (map_to_list tbl) r
              (NoDup_fst_map_to_list tbl) h c Hr) as (c' & Hrun & Hc').
  exists c'. unfold compositeSerializer. unfold_monad. rewrite Hrun.
  split; [done|]. intros k. rewrite Hc'. by rewrite list_to_map_to_list.
Qed.

End SerializerOnMaps.

Section LogOutcome.

(** The two ways an enabled call can end on a logger of the API. *)
Lemma Log_enabled now l level message fields s lg path :
  wf s → loggers s !! l = Some lg → ancestry (loggers s) l path →
  validRef (maps s) fields → installed (Serializer lg) →
  isEnabled lg level = true →
  ∃ g : Heap,
    let merged := mergedFields s path fields in
    let entry := mkLogEntry now message level (Some (length (maps s ++ g))) in
    (¬ rejectsMessages (Serializer lg) ∧
     Log now l level message fields s =
       Ok tt (mkState (loggers s) (maps s ++ g ++ [merged])
                (stdout s ++ [report (Writer lg) entry merged]))) ∨
    (rejectsMessages (Serializer lg) ∧
     Log now l level message fields s =
       Panic "interface conversion: interface {} is not map[string]interface {}"
         (mkState (loggers s) (maps s ++ g ++ [merged]) (stdout s))).
Proof.
  intros Hwf Hl Hanc Hf [Hser|[tbl Hser]] Hen.
  - destruct (Log_plain now l level message fields s lg path) as [g Hg];
      try done.
    exists g. left. split; [|done].
    intros (tbl & _ & Htbl). congruence.
  - destruct (decide (tbl = ∅)) as [->|Hne].
    + destruct (Log_composite_empty now l level message fields s lg path)
        as [g Hg]; try done.
      exists g. left. split; [|done].
      intros (tbl & Hne & Htbl). rewrite Hser in Htbl.
      injection Htbl as Htbl.
      pose proof (f_equal (λ f, f (VString "") []) Htbl) as Hrun.
      simpl in Hrun. rewrite !compositeSerializer_string in Hrun.
      rewrite decide_True, decide_False in Hrun; done.
    + destruct (Log_composite_panic now l level message fields s lg path tbl)
        as [g Hg]; try done.
      exists g. right. split; [|done]. by exists tbl.
Qed.

End LogOutcome.

(** * The level filter *)

Lemma severity_unknown level : level ∉ knownLevels → severity level = 0%Z.
Proof.
  intros H. unfold severity, levels.
  by rewrite (not_elem_of_list_to_map_1 (M:=gmap string)).
Qed.

Lemma severity_known level :
  level ∈ knownLevels → (1 ≤ severity level ≤ 5)%Z.
Proof.
  unfold knownLevels. intros H.
  repeat (apply elem_of_cons in H as [->|H]; [by vm_compute|]).
  by apply elem_of_nil in H.
Qed.

Lemma severity_table :
  severity "debug" = 1%Z ∧ severity "info" = 2%Z ∧ severity "warn" = 3%Z ∧
  severity "error" = 4%Z ∧ severity "fatal" = 5%Z.
Proof. by vm_compute. Qed.

(** C4.  A name outside the table has severity 0: as the level of a call it
    is refused by every logger whose level is in the table, and as the
    level of a logger it lets every call at a level of the table through. *)
Theorem unknown_level_severity_zero (lg : Logger) (known unknown : string) :
  known ∈ knownLevels → unknown ∉ knownLevels →
  severity unknown = 0%Z ∧
  (Level lg = known → isEnabled lg unknown = false) ∧
  (Level lg = unknown → isEnabled lg known = true).
Proof.
  intros Hk Hu. apply severity_unknown in Hu. apply severity_known in Hk.
  split; [done|]. unfold isEnabled.
  split; intros ->.
  - apply bool_decide_eq_false. lia.
  - apply bool_decide_eq_true. lia.
Qed.

Lemma unknown_level_severity_zero_witness :
  severity "trace" = 0%Z ∧
  (isEnabled (mkLogger "warn" acceptAll None [] None None) "trace" = false) ∧
  (isEnabled (mkLogger "trace" acceptAll None [] None None) "warn" = true).
Proof.
  assert ("warn" ∈ knownLevels) as Hk
    by (apply (bool_decide_unpack _); vm_compute; exact I).
  assert ("trace" ∉ knownLevels) as Hu
    by (apply (bool_decide_unpack _); vm_compute; exact I).
  split_and!.
  - exact (proj1 (unknown_level_severity_zero
                    (mkLogger "warn" acceptAll None [] None None)
                    "warn" "trace" Hk Hu)).
  - by apply (unknown_level_severity_zero
                (mkLogger "warn" acceptAll None [] None None)
                "warn" "trace" Hk Hu).
  - by apply (unknown_level_severity_zero
                (mkLogger "trace" acceptAll None [] None None)
                "warn" "trace" Hk Hu).
Defined.

(** C7.  A call at a level the logger does not enable returns at once and
    leaves the whole store as it was: nothing is written to standard
    output, by the encoder or as a diagnostic, and no logger and no map
    changes. *)
Theorem Log_disabled_is_noop now l level message fields (s : State) lg :
  loggers s !! l = Some lg →
  isEnabled lg level = false →
  Log now l level message fields s = Ok tt s.
Proof. apply Log_disabled. Qed.

Lemma Log_disabled_is_noop_witness :
  Log "2024-01-01T00:00:00Z" 0 "debug" "hello" None (rootStore acceptAll) =
    Ok tt (rootStore acceptAll).
Proof.
  apply (Log_disabled_is_noop _ 0 "debug" _ _ (rootStore acceptAll)
           (mkLogger "info" acceptAll None [] (Some 0) None)).
  - reflexivity.
  - by vm_compute.
Defined.

(** * Calls on a logger made by [WithSerializers] *)

(** Where the serializer lets a call through, the level filter alone
    decides whether the writer is handed an entry. *)
Lemma level_gate now l level message fields (s : State) lg :
  wf s → loggers s !! l = Some lg → validRef (maps s) fields →
  installed (Serializer lg) → ¬ rejectsMessages (Serializer lg) →
  ∃ s', Log now l level message fields s = Ok tt s' ∧
    ((∃ e c, stdout s' = stdout s ++ [report (Writer lg) e c]) ↔
     (severity level >= severity (Level lg))%Z).
Proof.
  intros Hwf Hl Hf Hinst Hrej.
  destruct (wf_ancestry s Hwf l) as (path & Hanc & _); [by eexists|].
  destruct (isEnabled lg level) eqn:Hen.
  - destruct (Log_enabled now l level message fields s lg path)
      as (g & [[_ Hrun]|[Hr _]]); try done.
    eexists. split; [exact Hrun|]. simpl. split; [|by eauto].
    intros _. unfold isEnabled in Hen. by apply bool_decide_eq_true in Hen.
  - exists s. split; [by eapply Log_disabled|]. split.
    + intros (e & c & Heq). apply (f_equal length) in Heq.
      rewrite length_app in Heq. simpl in Heq. lia.
    + intros Hge. unfold isEnabled in Hen.
      by apply bool_decide_eq_false in Hen.
Qed.

(** A failure of the encoder is printed, and the call returns. *)
Lemma Log_encoding_failure now l level message fields (s : State) lg err :
  wf s → loggers s !! l = Some lg → validRef (maps s) fields →
  Serializer lg = None → isEnabled lg level = true →
  (∀ e c, Writer lg e c = Some err) →
  ∃ s', Log now l level message fields s = Ok tt s' ∧
    stdout s' = stdout s ++ [Printed ("Error encoding log entry: " +:+ err)].
Proof.
  intros Hwf Hl Hf Hser Hen Hw.
  destruct (wf_ancestry s Hwf l) as (path & Hanc & _); [by eexists|].
  destruct (Log_plain now l level message fields s lg path) as [g Hg];
    try done.
  simpl in Hg. eexists. split; [exact Hg|]. simpl.
  unfold report. by rewrite Hw.
Qed.

(** Handed the field map itself, the closure masks the secret and keeps the
    other field. *)
Lemma compositeSerializer_masks mask :
  compositeSerializer {["secret" := mask]} (VMap (Some 0)) [secretFields] =
    Ok (VMap (Some 0))
       [{["secret" := mask (VString "abc"); "other" := VString "x"]}].
Proof. by vm_compute. Qed.

(** C2, at the input where the code departs from it: on a logger made by
    [WithSerializers] with a table that is not empty, a call at level
    ["info"] passes the level filter of the logger, whose level is
    ["info"], and yet hands nothing to standard output: the closure panics
    on the message of the entry. *)
Theorem enabled_call_writes_nothing (jsonStdout : Encoder)
    (mask : value → value) (now message : string) :
  ∃ s l lg,
    maskedLogger jsonStdout mask (mkState [] [] []) = Ok l s ∧
    loggers s !! l = Some lg ∧
    isEnabled lg "info" = true ∧
    ∃ msg s',
      Log now l "info" message None s = Panic msg s' ∧
      stdout s' = stdout s.
Proof.
  do 3 eexists. split; [by vm_compute|].
  split; [reflexivity|]. split; [by vm_compute|].
  do 2 eexists. split; [by vm_compute|]. reflexivity.
Qed.

(** C3, at its own input: the call with fields
    [{"secret":"abc","other":"x"}] on the logger made by
    [WithSerializers({"secret": mask})] panics in the closure when it is
    handed the message, before the fields are transformed, and no entry is
    produced. *)
Theorem masked_call_produces_no_entry (jsonStdout : Encoder)
    (mask : value → value) (now message : string) :
  ∃ s',
    maskedCall jsonStdout mask now message (mkState [] [] []) =
      Panic "interface conversion: interface {} is not map[string]interface {}"
        s' ∧
    stdout s' = [].
Proof. eexists. split; [by vm_compute|]. reflexivity. Qed.

(** C5, at the input where the code departs from it: a call at level
    ["fatal"] on the logger made by [WithSerializers({"secret": mask})]
    does not return; it panics. *)
Theorem Log_panics_after_WithSerializers (jsonStdout : Encoder)
    (mask : value → value) (now message : string) :
  ∃ s l,
    maskedLogger jsonStdout mask (mkState [] [] []) = Ok l s ∧
    (∃ msg s', Log now l "fatal" message None s = Panic msg s') ∧
    ¬ ∃ s', Log now l "fatal" message None s = Ok tt s'.
Proof.
  do 2 eexists. split; [by vm_compute|]. split.
  - do 2 eexists. by vm_compute.
  - intros [s' Hs']. vm_compute in Hs'. discriminate.
Qed.

(** * Creation of children *)

Lemma wf_rootStore w : wf (rootStore w).
Proof.
  intros [|i] lg H; simpl in H; [|by rewrite lookup_nil in H].
  simplify_eq. simpl. split; [done|lia].
Qed.

Lemma apiBuilt_rootStore w : apiBuilt (rootStore w).
Proof.
  intros [|i] lg H; simpl in H; [|by rewrite lookup_nil in H].
  simplify_eq. by left.
Qed.

(** C6.  The serializer of a new child: [Child] leaves none, whatever the
    caller has; [WithFields] stores the caller's; [WithSerializers] stores
    the closure over its own table, in which the caller's serializer has no
    part. *)
Theorem serializer_of_new_child (jsonStdout : Encoder) (s : State) l lg
    fields tbl :
  wf s → loggers s !! l = Some lg → validRef (maps s) fields →
  (∃ s' c,
     Child jsonStdout l fields s = Ok (length (loggers s)) s' ∧
     loggers s' !! length (loggers s) = Some c ∧
     Serializer c = None) ∧
  (∃ s' c,
     WithFields jsonStdout l fields s = Ok (length (loggers s)) s' ∧
     loggers s' !! length (loggers s) = Some c ∧
     Serializer c = Serializer lg) ∧
  (∃ s' c,
     WithSerializers jsonStdout l tbl s = Ok (length (loggers s)) s' ∧
     loggers s' !! length (loggers s) = Some c ∧
     Serializer c = Some (compositeSerializer tbl)).
Proof.
  intros Hwf Hl Hf.
  destruct (wf_ancestry s Hwf l) as (path & Hanc & _); [by eexists|].
  split_and!.
  - destruct (Child_run jsonStdout s l lg path fields) as [g Hg]; try done.
    do 2 eexists. split; [exact Hg|].
    split; [by apply childState_lookup_child|done].
  - destruct (WithFields_run jsonStdout s l lg path fields) as [g Hg];
      try done.
    do 2 eexists. split; [exact Hg|].
    split; [by apply childState_lookup_child|done].
  - destruct (WithSerializers_run jsonStdout s l lg path tbl) as [g Hg];
      try done.
    do 2 eexists. split; [exact Hg|].
    split; [by apply childState_lookup_child|done].
Qed.

Lemma wf_serializingRoot : wf serializingRoot.
Proof.
  intros [|i] lg H; simpl in H; [|by rewrite lookup_nil in H].
  simplify_eq. simpl. split; [done|lia].
Qed.

Lemma serializer_of_new_child_witness :
  (∃ s' c,
     Child acceptAll 0 None serializingRoot = Ok 1 s' ∧
     loggers s' !! 1 = Some c ∧ Serializer c = None) ∧
  (∃ s' c,
     WithFields acceptAll 0 None serializingRoot = Ok 1 s' ∧
     loggers s' !! 1 = Some c ∧ Serializer c = Some passThrough) ∧
  (∃ s' c,
     WithSerializers acceptAll 0 ∅ serializingRoot = Ok 1 s' ∧
     loggers s' !! 1 = Some c ∧
     Serializer c = Some (compositeSerializer ∅)).
Proof.
  apply (serializer_of_new_child acceptAll serializingRoot 0
           (mkLogger "info" acceptAll None [] (Some 0) (Some passThrough))
           None ∅).
  - apply wf_serializingRoot.
  - reflexivity.
  - exact I.
Defined.

(** * Event fields are frozen *)

(** The closure of [WithSerializers], run by [serializeEntry], writes to no
    map but the fields of the entry it is handed. *)
Lemma serializeEntry_frame l entry (s : State) lg tbl :
  loggers s !! l = Some lg →
  Serializer lg = Some (compositeSerializer tbl) →
  ∃ s', after (serializeEntry l entry s) s' ∧
    loggers s' = loggers s ∧ stdout s' = stdout s ∧
    sameExcept (Fields entry) (maps s) (maps s').
Proof.
  intros Hl Hser. unfold serializeEntry, getLogger, liftHeap. unfold_monad.
  rewrite Hl, Hser.
  pose proof (compositeSerializer_frame tbl (VString (Message entry)) (maps s))
    as H1.
  destruct (compositeSerializer tbl (VString (Message entry)) (maps s))
    as [v h1|msg h1|]; [|destruct H1 as (-> & _)|done].
  2:{ eexists. split; [done|]. simpl. by split_and!. }
  destruct H1 as [-> [Hlen1 Hsame1]]. simpl.
  assert (h1 = maps s) as ->.
  { apply list_eq. intros j. apply Hsame1. done. }
  pose proof (compositeSerializer_frame tbl (VMap (Fields entry)) (maps s))
    as H2.
  destruct (compositeSerializer tbl (VMap (Fields entry)) (maps s))
    as [w h2|msg h2|]; [|destruct H2 as (_ & _ & Hm)|done].
  2:{ by destruct (Hm (Fields entry)). }
  destruct H2 as [-> Hsame2]. simpl.
  eexists. split; [done|]. simpl. done.
Qed.

(** C8.  No call of the API changes the event fields of a logger that
    exists when it is made: after [Log] (enabled or not, returning or
    panicking in the closure of [WithSerializers]), [Child], [WithFields]
    and [WithSerializers], every such logger refers to the same map, and
    the map holds what it held. *)
Theorem eventFields_never_change (jsonStdout : Encoder) (s : State)
    (c : call) :
  wf s → apiBuilt s → argsOk s c →
  ∃ s', after (run jsonStdout c s) s' ∧
    ∀ i lg, loggers s !! i = Some lg →
      ∃ lg', loggers s' !! i = Some lg' ∧
        EventFields lg' = EventFields lg ∧
        contents (maps s') (EventFields lg') =
          contents (maps s) (EventFields lg).
Proof.
  intros Hwf Hapi Hargs.
  destruct (run_transition jsonStdout s c Hwf Hapi Hargs) as (s' & Hrun & Htr).
  exists s'. split; [done|]. intros i lg Hi.
  destruct (transition_extends jsonStdout s s' Hwf Htr i lg Hi)
    as (lg' & Hi' & _ & _ & _ & He & Hc).
  eauto.
Qed.

Lemma eventFields_never_change_witness :
  ∃ s', after (run acceptAll
                 (CallLog "2024-01-01T00:00:00Z" 0 "error" "boom" None)
                 (rootStore acceptAll)) s' ∧
    ∀ i lg, loggers (rootStore acceptAll) !! i = Some lg →
      ∃ lg', loggers s' !! i = Some lg' ∧
        EventFields lg' = EventFields lg ∧
        contents (maps s') (EventFields lg') =
          contents (maps (rootStore acceptAll)) (EventFields lg).
Proof.
  apply (eventFields_never_change acceptAll (rootStore acceptAll)
           (CallLog "2024-01-01T00:00:00Z" 0 "error" "boom" None)).
  - apply wf_rootStore.
  - apply apiBuilt_rootStore.
  - simpl. split; [by eexists|exact I].
Defined.

(** * Field resolution *)

Lemma mergedFields_deepUnion (s : State) path fields :
  mergedFields s path fields =
    deepUnion (layers s path ++ [contents (maps s) fields]).
Proof. unfold mergedFields. by rewrite deepUnion_snoc. Qed.

(** An entry that reaches standard output was built by the call: its fields
    are the map the merge allocated. *)
Lemma Log_emitted now l level message fields (s : State) lg path s' e c :
  wf s → loggers s !! l = Some lg → ancestry (loggers s) l path →
  validRef (maps s) fields → installed (Serializer lg) →
  after (Log now l level message fields s) s' →
  stdout s' = stdout s ++ [Encoded e c] →
  c = mergedFields s path fields ∧
  (∃ r, Fields e = Some r ∧ maps s' !! r = Some c) ∧
  Message e = message ∧ EntryLevel e = level ∧ Timestamp e = now.
Proof.
  intros Hwf Hl Hanc Hf Hinst Hafter Hout.
  destruct (isEnabled lg level) eqn:Hen.
  - destruct (Log_enabled now l level message fields s lg path)
      as (g & [[_ Hrun]|[_ Hrun]]); try done;
      simpl in Hrun; rewrite Hrun in Hafter; simpl in Hafter; subst s';
      simpl in Hout.
    + apply app_inv_head in Hout. unfold report in Hout.
      destruct (Writer lg _ _); [done|]. simplify_eq. simpl.
      split_and!; try done. eexists. split; [done|].
      rewrite (assoc_L (++)). apply lookup_snoc.
    + apply (f_equal length) in Hout. rewrite length_app in Hout.
      simpl in Hout. lia.
  - rewrite (Log_disabled _ _ _ _ _ _ lg) in Hafter by done.
    simpl in Hafter. subst s'.
    apply (f_equal length) in Hout. rewrite length_app in Hout.
    simpl in Hout. lia.
Qed.

(** C1.  The fields of a call on a node are the overlay of the event fields
    along its ancestor chain, root first, under the call-site fields: this
    is what [mergeFields] answers and what an emitted entry carries.  For
    [P] with fields [{"p":1}], the child made with [{"x":1}] has merged
    fields [{"p":1,"x":1}] and the child made with [{"y":2}] has
    [{"p":1,"y":2}]. *)
Theorem fields_are_deep_union (jsonStdout : Encoder) (s : State) l lg path
    fields :
  wf s → loggers s !! l = Some lg → ancestry (loggers s) l path →
  validRef (maps s) fields → installed (Serializer lg) →
  (∃ r s',
     mergeFields (length (loggers s)) l fields s = Ok (Some r) s' ∧
     maps s' !! r =
       Some (deepUnion (layers s path ++ [contents (maps s) fields]))) ∧
  (∀ now level message s' e c,
     after (Log now l level message fields s) s' →
     stdout s' = stdout s ++ [Encoded e c] →
     c = deepUnion (layers s path ++ [contents (maps s) fields]) ∧
     contents (maps s') (Fields e) = c) ∧
  (∃ s',
     siblings jsonStdout (mkState [] [] []) =
       Ok ({["p" := VInt 1; "x" := VInt 1]},
           {["p" := VInt 1; "y" := VInt 2]}) s').
Proof.
  intros Hwf Hl Hanc Hf Hinst. split_and!.
  - destruct (mergeFields_wf s l fields path Hwf Hanc Hf) as [g Hg].
    do 2 eexists. split; [exact Hg|]. simpl.
    rewrite (assoc_L (++)), lookup_snoc.
    by rewrite <- mergedFields_deepUnion.
  - intros now level message s' e c Hafter Hout.
    destruct (Log_emitted now l level message fields s lg path s' e c)
      as (Hc & (r & Hr & Hlook) & _); try done.
    rewrite <- mergedFields_deepUnion. split; [done|].
    rewrite Hr. simpl. by rewrite Hlook.
  - eexists. by vm_compute.
Qed.

Lemma fields_are_deep_union_witness :
  (∃ r s',
     mergeFields 1 0 None (rootStore acceptAll) = Ok (Some r) s' ∧
     maps s' !! r = Some (deepUnion (layers (rootStore acceptAll) [0] ++ [∅]))) ∧
  (∀ now level message s' e c,
     after (Log now 0 level message None (rootStore acceptAll)) s' →
     stdout s' = [Encoded e c] →
     c = deepUnion (layers (rootStore acceptAll) [0] ++ [∅]) ∧
     contents (maps s') (Fields e) = c) ∧
  (∃ s',
     siblings acceptAll (mkState [] [] []) =
       Ok ({["p" := VInt 1; "x" := VInt 1]},
           {["p" := VInt 1; "y" := VInt 2]}) s').
Proof.
  apply (fields_are_deep_union acceptAll (rootStore acceptAll) 0
           (mkLogger "info" acceptAll None [] (Some 0) None) [0] None).
  - apply wf_rootStore.
  - reflexivity.
  - by eapply ancestry_root.
  - exact I.
  - by left.
Defined.

(** * The ancestor walk against the node's own fields *)

Lemma union_absorb (a x : gmap string value) : dom x ⊆ dom a → a ∪ x = a.
Proof.
  intros Hdom. apply map_eq. intros k. rewrite lookup_union.
  destruct (a !! k) as [v|] eqn:Ha; [by destruct (x !! k)|].
  assert (x !! k = None) as ->; [|done].
  apply not_elem_of_dom. intros Hk. apply Hdom in Hk.
  by apply not_elem_of_dom in Ha.
Qed.

Lemma frozen_mergedFields (s : State) l path fields :
  frozen s → ancestry (loggers s) l path →
  mergedFields s path fields = overlayOwn s l fields.
Proof.
  intros Hfr Hanc. unfold mergedFields, overlayOwn. f_equal.
  destruct Hanc as [l lg Hl Hp|l lg p path Hl Hp Hanc].
  - unfold layers, deepUnion. simpl. by rewrite (right_id_L ∅ (∪)).
  - unfold layers. rewrite fmap_app. simpl. rewrite deepUnion_snoc.
    apply union_absorb. by eapply Hfr.
Qed.

(** C9.  On a store built by the API, [mergeFields] of a node answers the
    call-site fields laid over the event fields of that node alone: the
    walk up the ancestors adds nothing, because the event fields of a child
    were made from the merged fields of its parent. *)
Theorem mergeFields_is_overlay_of_own_fields (jsonStdout : Encoder)
    (s : State) l fields :
  reachable jsonStdout s → is_Some (loggers s !! l) →
  validRef (maps s) fields →
  ∃ r s',
    mergeFields (length (loggers s)) l fields s = Ok (Some r) s' ∧
    maps s' !! r = Some (overlayOwn s l fields).
Proof.
  intros Hreach Hl Hf.
  destruct (reachable_inv jsonStdout s Hreach) as (Hwf & _ & Hfr).
  destruct (wf_ancestry s Hwf l Hl) as (path & Hanc & _).
  destruct (mergeFields_wf s l fields path Hwf Hanc Hf) as [g Hg].
  do 2 eexists. split; [exact Hg|]. simpl.
  rewrite (assoc_L (++)), lookup_snoc.
  fold (mergedFields s path fields). by erewrite frozen_mergedFields.
Qed.

Lemma reachable_parentAndChild : reachable acceptAll parentAndChild.
Proof.
  eapply (reachable_step acceptAll _ (CallChild 0 (Some 1))).
  - eapply (reachable_step acceptAll _ (CallMakeMap {["p" := VInt 1]})).
    + eapply (reachable_step acceptAll _ CallGenerateLogger).
      * apply reachable_init.
      * exact I.
      * reflexivity.
    + exact I.
    + reflexivity.
  - simpl. split; [by eexists|lia].
  - by vm_compute.
Qed.

Lemma mergeFields_is_overlay_of_own_fields_witness :
  ∃ r s',
    mergeFields (length (loggers parentAndChild)) 1 None parentAndChild =
      Ok (Some r) s' ∧
    maps s' !! r = Some (overlayOwn parentAndChild 1 None).
Proof.
  apply (mergeFields_is_overlay_of_own_fields acceptAll parentAndChild 1 None).
  - apply reachable_parentAndChild.
  - by eexists.
  - exact I.
Defined.

(** * Nil field maps *)

(** C10.  [Child(nil)] returns, and the event fields of the child are what
    [mergeFields(nil)] answers on the caller, the overlay of the event
    fields along the caller's chain; and [mergeFields] always answers a map
    that is allocated, never the nil map, so that the entry built from it
    has fields. *)
Theorem nil_fields_are_safe (jsonStdout : Encoder) (s : State) l lg path :
  wf s → loggers s !! l = Some lg → ancestry (loggers s) l path →
  (∃ r s1 s',
     mergeFields (length (loggers s)) l None s = Ok (Some r) s1 ∧
     Child jsonStdout l None s = Ok (length (loggers s)) s' ∧
     Some (eventFieldsOf s' (length (loggers s))) = maps s1 !! r ∧
     eventFieldsOf s' (length (loggers s)) = deepUnion (layers s path)) ∧
  (∀ fields, validRef (maps s) fields →
     ∃ r s', mergeFields (length (loggers s)) l fields s = Ok (Some r) s' ∧
       is_Some (maps s' !! r)) ∧
  (∀ now level message fields s' e c,
     validRef (maps s) fields → installed (Serializer lg) →
     after (Log now l level message fields s) s' →
     stdout s' = stdout s ++ [Encoded e c] →
     ∃ r, Fields e = Some r ∧ maps s' !! r = Some c).
Proof.
  intros Hwf Hl Hanc. split_and!.
  - destruct (mergeFields_wf s l None path Hwf Hanc I) as [g Hg].
    destruct (Child_run jsonStdout s l lg path None Hwf Hl Hanc I)
      as [g' Hg'].
    do 3 eexists. split; [exact Hg|]. split; [exact Hg'|].
    rewrite childState_eventFieldsOf by done. simpl.
    rewrite (assoc_L (++)), lookup_snoc.
    unfold mergedFields. simpl. by rewrite (left_id_L ∅ (∪)).
  - intros fields Hf.
    destruct (mergeFields_wf s l fields path Hwf Hanc Hf) as [g Hg].
    do 2 eexists. split; [exact Hg|]. simpl.
    rewrite (assoc_L (++)), lookup_snoc. by eexists.
  - intros now level message fields s' e c Hf Hinst Hafter Hout.
    by destruct (Log_emitted now l level message fields s lg path s' e c)
      as (_ & Hr & _).
Qed.

Lemma nil_fields_are_safe_witness :
  (∃ r s1 s',
     mergeFields 1 0 None (rootStore acceptAll) = Ok (Some r) s1 ∧
     Child acceptAll 0 None (rootStore acceptAll) = Ok 1 s' ∧
     Some (eventFieldsOf s' 1) = maps s1 !! r ∧
     eventFieldsOf s' 1 = deepUnion (layers (rootStore acceptAll) [0])) ∧
  (∀ fields, validRef [∅] fields →
     ∃ r s', mergeFields 1 0 fields (rootStore acceptAll) = Ok (Some r) s' ∧
       is_Some (maps s' !! r)) ∧
  (∀ now level message fields s' e c,
     validRef [∅] fields → installed None →
     after (Log now 0 level message fields (rootStore acceptAll)) s' →
     stdout s' = [Encoded e c] →
     ∃ r, Fields e = Some r ∧ maps s' !! r = Some c).
Proof.
  apply (nil_fields_are_safe acceptAll (rootStore acceptAll) 0
           (mkLogger "info" acceptAll None [] (Some 0) None) [0]).
  - apply wf_rootStore.
  - reflexivity.
  - by eapply ancestry_root.
Defined.

(** * Comparison of entries *)

Section ComparisonFacts.

Variable jsonMarshal : Heap → value → option (list Byte.byte).

Lemma compareFieldValues_true h a b :
  compareFieldValues jsonMarshal h a b = true ↔
  ∃ bytes, jsonMarshal h a = Some bytes ∧ jsonMarshal h b = Some bytes.
Proof.
  unfold compareFieldValues.
  destruct (jsonMarshal h a) as [x|], (jsonMarshal h b) as [y|]; split;
    try done; try by intros (? & ? & ?).
  - intros Heq. apply bool_decide_eq_true in Heq. subst. eauto.
  - intros (z & ? & ?). simplify_eq. by apply bool_decide_eq_true.
Qed.

Lemma compareFieldsLoop_true h kvs (b : gmap string value) :
  compareFieldsLoop jsonMarshal h kvs b = true ↔
  ∀ k va, (k, va) ∈ kvs →
    ∃ vb, b !! k = Some vb ∧ compareFieldValues jsonMarshal h va vb = true.
Proof.
  induction kvs as [|[k va] kvs IH]; simpl.
  - split; [|done]. intros _ k va Hin. by apply elem_of_nil in Hin.
  - split.
    + intros Hrun k' va' Hin. destruct (b !! k) as [vb|] eqn:Hb; [|done].
      destruct (compareFieldValues _ h va vb) eqn:Hc; [|done].
      apply elem_of_cons in Hin as [[= -> ->]|Hin]; [by eauto|].
      by apply IH.
    + intros Hall. destruct (Hall k va) as (vb & -> & ->); [by left|].
      apply IH. intros k' va' Hin. apply Hall. by right.
Qed.

Lemma compareFields_spec h (a b : mapref) :
  compareFields jsonMarshal h a b = true ↔
  dom (contents h a) = dom (contents h b) ∧
  ∀ k va vb,
    contents h a !! k = Some va → contents h b !! k = Some vb →
    ∃ bytes, jsonMarshal h va = Some bytes ∧ jsonMarshal h vb = Some bytes.
Proof.
  unfold compareFields. set (A := contents h a). set (B := contents h b).
  case_bool_decide as Hsize.
  - split; [done|]. intros [Hdom _]. exfalso. apply Hsize.
    by rewrite <- !size_dom, Hdom.
  - rewrite compareFieldsLoop_true. split.
    + intros Hall.
      assert (dom A ⊆ dom B) as Hsub.
      { intros k Hk. apply elem_of_dom in Hk as [va Hk].
        apply elem_of_map_to_list in Hk.
        destruct (Hall _ _ Hk) as (vb & Hb & _). apply elem_of_dom. eauto. }
      split.
      * apply set_subseteq_size_eq; [done|]. rewrite !size_dom. lia.
      * intros k va vb Ha Hb. apply elem_of_map_to_list in Ha.
        destruct (Hall _ _ Ha) as (vb' & Hb' & Hc). simplify_eq.
        by apply compareFieldValues_true.
    + intros [Hdom Hval] k va Hin. apply elem_of_map_to_list in Hin.
      assert (is_Some (B !! k)) as [vb Hb].
      { apply elem_of_dom. rewrite <- Hdom. apply elem_of_dom. eauto. }
      exists vb. split; [done|]. apply compareFieldValues_true. eauto.
Qed.

Lemma compareFields_sym h (a b : mapref) :
  compareFields jsonMarshal h a b = compareFields jsonMarshal h b a.
Proof.
  apply eq_true_iff_eq. rewrite !compareFields_spec.
  split; intros [Hdom Hval]; (split; [done|]); intros k va vb Ha Hb;
    destruct (Hval k vb va Hb Ha) as (bytes & ? & ?); eauto.
Qed.

Lemma compareFields_trans h (a b c : mapref) :
  compareFields jsonMarshal h a b = true →
  compareFields jsonMarshal h b c = true →
  compareFields jsonMarshal h a c = true.
Proof.
  rewrite !compareFields_spec. intros [Hab Vab] [Hbc Vbc].
  split; [congruence|]. intros k va vc Ha Hc.
  assert (is_Some (contents h b !! k)) as [vb Hb].
  { apply elem_of_dom. rewrite <- Hab. apply elem_of_dom. eauto. }
  destruct (Vab k va vb Ha Hb) as (x & Hx1 & Hx2).
  destruct (Vbc k vb vc Hb Hc) as (y & Hy1 & Hy2).
  simplify_eq. eauto.
Qed.

(** X1.  [compareFields] answers true exactly when the two maps have the
    same keys and, at every key, both values marshal without error to the
    same bytes.  A key that only [b] has is caught by the comparison of the
    lengths, although the loop visits the keys of [a] alone. *)
Theorem compareFields_true_iff h (a b : mapref) :
  compareFields jsonMarshal h a b = true ↔
  dom (contents h a) = dom (contents h b) ∧
  ∀ k va vb,
    contents h a !! k = Some va → contents h b !! k = Some vb →
    ∃ bytes, jsonMarshal h va = Some bytes ∧ jsonMarshal h vb = Some bytes.
Proof. apply compareFields_spec. Qed.

(** X2.  [compareLogEntries] is symmetric and transitive: entries that
    compare equal do so in either order, and two entries that compare equal
    through a third compare equal to each other. *)
Theorem compareLogEntries_sym_trans h (a b c : LogEntry) :
  compareLogEntries jsonMarshal h a b = true →
  compareLogEntries jsonMarshal h b c = true →
  compareLogEntries jsonMarshal h b a = true ∧
  compareLogEntries jsonMarshal h a c = true.
Proof.
  unfold compareLogEntries. intros Hab Hbc.
  apply andb_true_iff in Hab as [Hab Fab].
  apply andb_true_iff in Hab as [Hab Lab].
  apply andb_true_iff in Hab as [Tab Mab].
  apply andb_true_iff in Hbc as [Hbc Fbc].
  apply andb_true_iff in Hbc as [Hbc Lbc].
  apply andb_true_iff in Hbc as [Tbc Mbc].
  apply bool_decide_eq_true in Tab, Mab, Lab, Tbc, Mbc, Lbc.
  rewrite (compareFields_trans h _ _ _ Fab Fbc).
  rewrite (compareFields_sym h (Fields b)), Fab.
  rewrite !andb_true_iff. split_and!; try done;
    apply bool_decide_eq_true; congruence.
Qed.

(** X3.  An entry compares equal to itself exactly when every value of its
    fields can be marshalled: one value that [json.Marshal] refuses makes
    the entry differ from itself. *)
Theorem compareLogEntries_refl_iff h (e : LogEntry) :
  compareLogEntries jsonMarshal h e e = true ↔
  marshallable jsonMarshal h (Fields e).
Proof.
  unfold compareLogEntries. rewrite !bool_decide_eq_true_2 by done. simpl.
  rewrite compareFields_spec. unfold marshallable. split.
  - intros [_ Hval] k v Hk. destruct (Hval k v v Hk Hk) as (? & ? & _).
    eauto.
  - intros Hm. split; [done|]. intros k va vb Ha Hb. simplify_eq.
    destruct (Hm k va Ha) as [bytes ?]. eauto.
Qed.

End ComparisonFacts.

Lemma compareFields_true_iff_witness :
  compareFields sampleMarshal
    [{["ok" := VBool true]}; {["ok" := VBool true]}] (Some 0) (Some 1) = true.
Proof.
  apply (proj2 (compareFields_true_iff sampleMarshal
                  [{["ok" := VBool true]}; {["ok" := VBool true]}]
                  (Some 0) (Some 1))).
  split; [by vm_compute|].
  intros k va vb Ha Hb. simpl in Ha, Hb.
  apply lookup_singleton_Some in Ha as [_ <-].
  apply lookup_singleton_Some in Hb as [_ <-].
  by eexists.
Defined.

Lemma compareLogEntries_refl_iff_witness :
  compareLogEntries sampleMarshal [{["ok" := VBool true]}]
    (mkLogEntry "2024-01-01T00:00:00Z" "hello" "info" (Some 0))
    (mkLogEntry "2024-01-01T00:00:00Z" "hello" "info" (Some 0)) = true.
Proof.
  apply (proj2 (compareLogEntries_refl_iff sampleMarshal
                  [{["ok" := VBool true]}]
                  (mkLogEntry "2024-01-01T00:00:00Z" "hello" "info" (Some 0)))).
  intros k v Hk. simpl in Hk.
  apply lookup_singleton_Some in Hk as [_ <-]. by eexists.
Defined.

(** * More on the level filter *)

Lemma severity_bounds name : (0 ≤ severity name ≤ 5)%Z.
Proof.
  destruct (decide (name ∈ knownLevels)) as [Hk|Hu].
  - apply severity_known in Hk. lia.
  - apply severity_unknown in Hu. lia.
Qed.

(** X4.  The filter is closed upwards: where a call at one level is
    enabled, so is a call at every level of at least its severity, and a
    call at ["fatal"] is enabled on every logger, whatever its level. *)
Theorem isEnabled_upward (lg : Logger) (level level' : string) :
  isEnabled lg level = true → (severity level ≤ severity level')%Z →
  isEnabled lg level' = true ∧ isEnabled lg "fatal" = true.
Proof.
  unfold isEnabled. intros Hen Hle. apply bool_decide_eq_true in Hen.
  pose proof (severity_bounds (Level lg)) as Hb.
  split; apply bool_decide_eq_true; [lia|].
  replace (severity "fatal") with 5%Z by (by vm_compute). lia.
Qed.

Lemma isEnabled_upward_witness :
  isEnabled (mkLogger "warn" acceptAll None [] None None) "error" = true ∧
  isEnabled (mkLogger "warn" acceptAll None [] None None) "fatal" = true.
Proof.
  apply (isEnabled_upward (mkLogger "warn" acceptAll None [] None None)
           "warn" "error").
  - by vm_compute.
  - by vm_compute.
Defined.

(** * More on the creation of children *)

Lemma wf_quietRoot : wf quietRoot.
Proof.
  intros [|i] lg H; simpl in H; [|by rewrite lookup_nil in H].
  simplify_eq. simpl. split; [done|lia].
Qed.

Section CreationFacts.

Variable jsonStdout : Encoder.

(** X5.  [Child] returns the index of a new logger.  The child has the
    level of the caller, the caller as parent, no children, no serializer
    and the encoder of [GenerateLogger] as writer, whatever writer the
    caller has; its event fields are the argument laid over the merged
    fields of the caller.  The caller gets the child appended to its
    children, and nothing is written to standard output. *)
Theorem Child_shape (s : State) l lg path fields :
  wf s → loggers s !! l = Some lg → ancestry (loggers s) l path →
  validRef (maps s) fields →
  ∃ s' c lg',
    Child jsonStdout l fields s = Ok (length (loggers s)) s' ∧
    length (loggers s') = S (length (loggers s)) ∧
    loggers s' !! length (loggers s) = Some c ∧
    Level c = Level lg ∧ Parent c = Some l ∧ Children c = [] ∧
    Writer c = jsonStdout ∧ Serializer c = None ∧
    eventFieldsOf s' (length (loggers s)) =
      contents (maps s) fields ∪ deepUnion (layers s path) ∧
    loggers s' !! l = Some lg' ∧
    Children lg' = Children lg ++ [length (loggers s)] ∧
    stdout s' = stdout s.
Proof.
  intros Hwf Hl Hanc Hf.
  destruct (Child_run jsonStdout s l lg path fields) as [g Hg]; try done.
  do 3 eexists. split; [exact Hg|]. split.
  { simpl. rewrite length_insert, length_app. simpl. lia. }
  split; [by apply childState_lookup_child|].
  do 5 (split; [done|]).
  split; [by rewrite childState_eventFieldsOf|].
  split; [by apply childState_lookup_l|]. done.
Qed.

(** What a step keeps of a logger beyond [extends]: its writer, and its
    children, to which a child may be appended. *)
Lemma transition_keeps s s' i lg :
  transition jsonStdout s s' → loggers s !! i = Some lg →
  ∃ lg', loggers s' !! i = Some lg' ∧ Writer lg' = Writer lg ∧
    Children lg `prefix_of` Children lg'.
Proof.
  intros [g evs| |l lgl path fields g ser Hl Hanc Hf Hser] Hi.
  - by exists lg.
  - exists lg. split; [by apply lookup_app_l_Some|done].
  - destruct (decide (i = l)) as [->|Hne].
    + simplify_eq. eexists. split; [by apply childState_lookup_l|].
      simpl. split; [done|]. by apply prefix_app_r.
    + exists lg. split; [by apply childState_lookup_old|done].
Qed.

Lemma transition_prefix s s' :
  transition jsonStdout s s' →
  maps s `prefix_of` maps s' ∧ stdout s `prefix_of` stdout s'.
Proof.
  intros [g evs| |l lgl path fields g ser Hl Hanc Hf Hser]; simpl.
  - split; by apply prefix_app_r.
  - split; [by apply prefix_app_r|done].
  - split; [by apply prefix_app_r|done].
Qed.

(** X6.  No call changes the level, the parent, the writer or the
    serializer of a logger that exists when it is made, and no call removes
    or reorders its children: a level set on a parent after a child was
    made does not reach the child through the API, and the children of a
    logger only grow. *)
Theorem loggers_are_kept (s : State) (c : call) :
  wf s → apiBuilt s → argsOk s c →
  ∃ s', after (run jsonStdout c s) s' ∧
    ∀ i lg, loggers s !! i = Some lg →
      ∃ lg', loggers s' !! i = Some lg' ∧
        Level lg' = Level lg ∧ Parent lg' = Parent lg ∧
        Writer lg' = Writer lg ∧ Serializer lg' = Serializer lg ∧
        Children lg `prefix_of` Children lg'.
Proof.
  intros Hwf Hapi Hargs.
  destruct (run_transition jsonStdout s c Hwf Hapi Hargs) as (s' & Hrun & Htr).
  exists s'. split; [done|]. intros i lg Hi.
  destruct (transition_extends jsonStdout s s' Hwf Htr i lg Hi)
    as (lg' & Hi' & HL & HP & HS & _).
  destruct (transition_keeps s s' i lg Htr Hi) as (lg2 & Hi2 & HW & HC).
  simplify_eq. eauto 10.
Qed.

(** X7.  No call writes to a map that exists when it is made, the field
    map of the caller included: the maps of the store are kept as they are
    and new ones are added after them.  What standard output holds is
    kept, and [GenerateLogger], [Child], [WithFields] and
    [WithSerializers] add nothing to it. *)
Theorem maps_and_output_are_kept (s : State) (c : call) :
  wf s → apiBuilt s → argsOk s c →
  ∃ s', after (run jsonStdout c s) s' ∧
    maps s `prefix_of` maps s' ∧
    stdout s `prefix_of` stdout s' ∧
    (match c with CallLog _ _ _ _ _ => True | _ => stdout s' = stdout s end).
Proof.
  intros Hwf Hapi Hargs.
  destruct (run_transition jsonStdout s c Hwf Hapi Hargs) as (s' & Hrun & Htr).
  exists s'. split; [done|].
  destruct (transition_prefix s s' Htr) as [Hm Ho]. split; [done|].
  split; [done|].
  destruct c as [m| |l fields|l fields|l tbl|now l level message fields];
    simpl in Hargs; [| | | | |done].
  - simpl in Hrun. by subst s'.
  - simpl in Hrun. by subst s'.
  - destruct Hargs as [[lg Hl] Hf].
    destruct (wf_ancestry s Hwf l) as (path & Hanc & _); [by eexists|].
    destruct (Child_run jsonStdout s l lg path fields) as [g Hg]; try done.
    unfold run in Hrun. unfold_monad. rewrite Hg in Hrun. simpl in Hrun.
    by subst s'.
  - destruct Hargs as [[lg Hl] Hf].
    destruct (wf_ancestry s Hwf l) as (path & Hanc & _); [by eexists|].
    destruct (WithFields_run jsonStdout s l lg path fields) as [g Hg];
      try done.
    unfold run in Hrun. unfold_monad. rewrite Hg in Hrun. simpl in Hrun.
    by subst s'.
  - destruct Hargs as [lg Hl].
    destruct (wf_ancestry s Hwf l) as (path & Hanc & _); [by eexists|].
    destruct (WithSerializers_run jsonStdout s l lg path tbl) as [g Hg];
      try done.
    unfold run in Hrun. unfold_monad. rewrite Hg in Hrun. simpl in Hrun.
    by subst s'.
Qed.

End CreationFacts.

Lemma Child_shape_witness :
  ∃ s' c lg',
    Child acceptAll 0 None quietRoot = Ok 1 s' ∧
    length (loggers s') = 2 ∧
    loggers s' !! 1 = Some c ∧
    Level c = "warn"%string ∧ Parent c = Some 0 ∧ Children c = [] ∧
    Writer c = acceptAll ∧ Serializer c = None ∧
    eventFieldsOf s' 1 = ∅ ∪ deepUnion (layers quietRoot [0]) ∧
    loggers s' !! 0 = Some lg' ∧
    Children lg' = [] ++ [1] ∧
    stdout s' = [].
Proof.
  apply (Child_shape acceptAll quietRoot 0
           (mkLogger "warn" (λ _ _, Some "closed"%string) None [] (Some 0) None)
           [0] None).
  - apply wf_quietRoot.
  - reflexivity.
  - by eapply ancestry_root.
  - exact I.
Defined.

Lemma loggers_are_kept_witness :
  ∃ s', after (run acceptAll (CallChild 0 None) quietRoot) s' ∧
    ∀ i lg, loggers quietRoot !! i = Some lg →
      ∃ lg', loggers s' !! i = Some lg' ∧
        Level lg' = Level lg ∧ Parent lg' = Parent lg ∧
        Writer lg' = Writer lg ∧ Serializer lg' = Serializer lg ∧
        Children lg `prefix_of` Children lg'.
Proof.
  apply (loggers_are_kept acceptAll quietRoot (CallChild 0 None)).
  - apply wf_quietRoot.
  - intros [|i] lg H; simpl in H; [|by rewrite lookup_nil in H].
    simplify_eq. by left.
  - simpl. split; [by eexists|exact I].
Defined.


(** * More on [Log] and on serializers *)

Lemma wf_customRoot ser : wf (customRoot ser).
Proof.
  intros [|i] lg H; simpl in H; [|by rewrite lookup_nil in H].
  simplify_eq. simpl. split; [done|lia].
Qed.



(** An enabled call on a logger with a serializer, up to the serializer. *)
Lemma Log_custom now l level message fields (s : State) lg path ser :
  wf s → loggers s !! l = Some lg → ancestry (loggers s) l path →
  validRef (maps s) fields →
  Serializer lg = Some ser → isEnabled lg level = true →
  ∃ g : Heap,
    Log now l level message fields s =
      (entry ← serializeEntry l
                 (mkLogEntry now message level (Some (length (maps s ++ g))));
       encode (Writer lg) entry)
        (mkState (loggers s) (maps s ++ g ++ [mergedFields s path fields])
           (stdout s)).
Proof.
  intros Hwf Hl Hanc Hf Hser Hen.
  destruct (mergeFields_wf s l fields path Hwf Hanc Hf) as [g Hg].
  exists g. unfold Log at 1, getLogger, chainBound. unfold_monad.
  by rewrite Hl, Hen, Hg, Hser.
Qed.

(** X9.  A serializer that breaks its contract makes the call panic: when
    it answers something that is not a string for the message, or
    something that is not a map for the fields, an enabled call panics on
    the type assertion of [serializeEntry] and writes nothing. *)
Theorem Log_panics_on_contract_violation now l level message fields
    (s : State) lg ser :
  wf s → loggers s !! l = Some lg → validRef (maps s) fields →
  Serializer lg = Some ser → isEnabled lg level = true →
  (∀ data h, ∃ v h', ser data h = Ok v h') →
  (∀ h v h', ser (VString message) h = Ok v h' → ∀ str, v ≠ VString str) ∨
  (∀ m h w h', ser (VMap m) h = Ok w h' → ∀ m', w ≠ VMap m') →
  ∃ msg s',
    Log now l level message fields s = Panic msg s' ∧
    stdout s' = stdout s.
Proof.
  intros Hwf Hl Hf Hser Hen Htotal Hbad.
  destruct (wf_ancestry s Hwf l) as (path & Hanc & _); [by eexists|].
  destruct (Log_custom now l level message fields s lg path ser) as [g Hg];
    try done.
  rewrite Hg. clear Hg.
  unfold serializeEntry, getLogger, liftHeap. unfold_monad. simpl.
  rewrite Hl, Hser. simpl.
  destruct (Htotal (VString message)
              (maps s ++ g ++ [mergedFields s path fields]))
    as (v & h1 & Hv).
  rewrite Hv. simpl.
  destruct v as [| | |str|m]; simpl; try by eauto.
  - destruct (Htotal (VMap (Some (length (maps s ++ g)))) h1)
      as (w & h2 & Hw).
    rewrite Hw. simpl.
    destruct Hbad as [Hbad|Hbad].
    { by destruct (Hbad _ _ _ Hv str). }
    destruct w as [| | | |m']; simpl; try by eauto.
    by destruct (Hbad _ _ _ _ Hw m').
Qed.

Lemma Log_panics_on_contract_violation_witness :
  ∃ msg s',
    Log "2024-01-01T00:00:00Z" 0 "info" "hello" None
      (customRoot nilSerializer) = Panic msg s' ∧
    stdout s' = [].
Proof.
  apply (Log_panics_on_contract_violation "2024-01-01T00:00:00Z" 0 "info"
           "hello" None (customRoot nilSerializer)
           (mkLogger "info" acceptAll None [] (Some 0) (Some nilSerializer))
           nilSerializer).
  - apply wf_customRoot.
  - reflexivity.
  - exact I.
  - reflexivity.
  - by vm_compute.
  - intros data h. by do 2 eexists.
  - left. intros h v h' Hv str. unfold nilSerializer in Hv. by simplify_eq.
Defined.

(** X10.  A serializer that answers a string for the message and hands
    maps back lets the call through: the entry that reaches the encoder
    carries the transformed message and the merged fields. *)
Theorem Log_with_message_serializer now l level message message' fields
    (s : State) lg path ser :
  wf s → loggers s !! l = Some lg → ancestry (loggers s) l path →
  validRef (maps s) fields →
  Serializer lg = Some ser → isEnabled lg level = true →
  (∀ h, ser (VString message) h = Ok (VString message') h) →
  (∀ m h, ser (VMap m) h = Ok (VMap m) h) →
  ∃ s' r,
    Log now l level message fields s = Ok tt s' ∧
    maps s' !! r = Some (mergedFields s path fields) ∧
    stdout s' =
      stdout s ++
        [report (Writer lg) (mkLogEntry now message' level (Some r))
           (mergedFields s path fields)].
Proof.
  intros Hwf Hl Hanc Hf Hser Hen Hmsg Hmap.
  destruct (Log_custom now l level message fields s lg path ser) as [g Hg];
    try done.
  rewrite Hg. clear Hg.
  unfold serializeEntry, getLogger, liftHeap. unfold_monad. simpl.
  rewrite Hl, Hser. simpl. rewrite Hmsg. simpl. rewrite Hmap. simpl.
  rewrite (assoc_L (++)). rewrite encode_run by done.
  do 2 eexists. split; [reflexivity|]. simpl.
  split; [apply lookup_snoc|done].
Qed.

Lemma Log_with_message_serializer_witness :
  ∃ s' r,
    Log "2024-01-01T00:00:00Z" 0 "info" "hello" None
      (customRoot tagSerializer) = Ok tt s' ∧
    maps s' !! r = Some (mergedFields (customRoot tagSerializer) [0] None) ∧
    stdout s' =
      [] ++
        [report acceptAll
           (mkLogEntry "2024-01-01T00:00:00Z" "[app] hello" "info" (Some r))
           (mergedFields (customRoot tagSerializer) [0] None)].
Proof.
  apply (Log_with_message_serializer "2024-01-01T00:00:00Z" 0 "info"
           "hello" "[app] hello" None (customRoot tagSerializer)
           (mkLogger "info" acceptAll None [] (Some 0) (Some tagSerializer))
           [0] tagSerializer).
  - apply wf_customRoot.
  - reflexivity.
  - by eapply ancestry_root.
  - exact I.
  - reflexivity.
  - by vm_compute.
  - reflexivity.
  - reflexivity.
Defined.

Lemma compositeLoop_nil (kvs : list (string * (value → value))) (h : Heap) :
  forRange kvs (compositeStep (VMap None)) h = Ok tt h.
Proof.
  induction kvs as [|[k f] kvs IH]; [done|].
  simpl. unfold_monad. simpl. rewrite lookup_empty. exact IH.
Qed.

(** X11.  Handed a map, the closure of [WithSerializers] does not panic
    and answers the same map, written in place: a key of the map that the
    table knows holds the transform of its value, every other key holds
    its value, and no key is added or removed.  No other map is written.
    Handed the nil map it answers it and writes nothing. *)
Theorem compositeSerializer_on_map tbl r (h : Heap) c :
  h !! r = Some c →
  (∃ c' : gmap string value,
     compositeSerializer tbl (VMap (Some r)) h =
       Ok (VMap (Some r)) (<[r := c']> h) ∧
     dom c' = dom c ∧
     ∀ k, c' !! k =
          match tbl !! k with
          | Some f => f <$> c !! k
          | None => c !! k
          end) ∧
  compositeSerializer tbl (VMap None) h = Ok (VMap None) h.
Proof.
  intros Hr. split.
  - destruct (compositeSerializer_map tbl r h c Hr) as (c' & Hrun & Hc').
    exists c'. split; [done|]. split; [|done].
    apply set_eq. intros k. rewrite !elem_of_dom, Hc'.
    destruct (tbl !! k); [|done].
    by rewrite fmap_is_Some.
  - unfold compositeSerializer. unfold_monad.
    by rewrite compositeLoop_nil.
Qed.

Lemma compositeSerializer_on_map_witness :
  (∃ c' : gmap string value,
     compositeSerializer {["secret" := λ _, VString "***"]} (VMap (Some 0))
       [secretFields] =
       Ok (VMap (Some 0)) (<[0 := c']> [secretFields]) ∧
     dom c' = dom secretFields ∧
     ∀ k, c' !! k =
          match ({["secret" := λ _, VString "***"]}
                   : gmap string (value → value)) !! k with
          | Some f => f <$> secretFields !! k
          | None => secretFields !! k
          end) ∧
  compositeSerializer {["secret" := λ _, VString "***"]} (VMap None)
    [secretFields] = Ok (VMap None) [secretFields].
Proof.
  apply (compositeSerializer_on_map {["secret" := λ _, VString "***"]} 0
           [secretFields] secretFields).
  reflexivity.
Defined.

(** * Calls on a new child *)

Section ChildCalls.

Variable jsonStdout : Encoder.

(** A call on a child just made, whose serializer lets it through. *)
Lemma Log_on_child now level message (s : State) l lg path fields g ser
    callFields :
  wf s → loggers s !! l = Some lg → ancestry (loggers s) l path →
  validRef (maps s) fields → validRef (maps s) callFields →
  installed ser → ¬ rejectsMessages ser →
  isEnabled lg level = true →
  ∃ s' r,
    Log now (length (loggers s)) level message callFields
      (childState jsonStdout s l lg g (mergedFields s path fields) ser) =
      Ok tt s' ∧
    stdout s' =
      stdout s ++
        [report jsonStdout (mkLogEntry now message level (Some r))
           (contents (maps s) callFields ∪
              (contents (maps s) fields ∪ deepUnion (layers s path)))].
Proof.
  intros Hwf Hl Hanc Hf Hcf Hinst Hrej Hen.
  set (s1 := childState jsonStdout s l lg g (mergedFields s path fields) ser).
  assert (transition jsonStdout s s1) as Htr by (by eapply tr_child).
  pose proof (transition_wf jsonStdout s s1 Hwf Htr) as Hwf1.
  pose proof (transition_extends jsonStdout s s1 Hwf Htr) as Hext.
  pose proof (childState_lookup_child jsonStdout s l lg g
                (mergedFields s path fields) ser Hl) as Hchild.
  fold s1 in Hchild.
  destruct (Log_enabled now (length (loggers s)) level message callFields s1
              _ (path ++ [length (loggers s)]) Hwf1 Hchild)
    as (g' & [[_ Hrun]|[Hr _]]); try done.
  { eapply ancestry_child; [exact Hchild|done|].
    by eapply extends_ancestry. }
  { destruct callFields as [r|]; simpl in *; [|done].
    rewrite !length_app. simpl. rewrite !length_app. lia. }
  simpl in Hrun. do 2 eexists. split; [exact Hrun|]. simpl.
  do 3 f_equal. unfold mergedFields.
  assert (contents (maps s1) callFields = contents (maps s) callFields)
    as -> by (unfold s1; simpl; by apply contents_app_valid).
  f_equal.
  unfold layers. rewrite fmap_app. simpl. rewrite deepUnion_snoc.
  fold (layers s1 path). rewrite (extends_layers s s1 l path) by done.
  unfold s1. rewrite childState_eventFieldsOf by done.
  unfold mergedFields.
  by rewrite <- (assoc_L (∪)), (idemp_L (∪)).
Qed.

(** X12.  A child made by [Child] or [WithFields] on a logger without
    serializer logs what the caller would, with its own fields on top: an
    enabled call on the child adds one line to standard output, and its
    fields are the call-site fields laid over the fields given at creation
    laid over the merged fields of the caller. *)
Theorem Log_after_Child now level message (s : State) l lg path fields
    callFields :
  wf s → loggers s !! l = Some lg → ancestry (loggers s) l path →
  validRef (maps s) fields → validRef (maps s) callFields →
  Serializer lg = None → isEnabled lg level = true →
  (∃ s1 n s2 r,
     Child jsonStdout l fields s = Ok n s1 ∧
     Log now n level message callFields s1 = Ok tt s2 ∧
     stdout s2 =
       stdout s ++
         [report jsonStdout (mkLogEntry now message level (Some r))
            (contents (maps s) callFields ∪
               (contents (maps s) fields ∪ deepUnion (layers s path)))]) ∧
  (∃ s1 n s2 r,
     WithFields jsonStdout l fields s = Ok n s1 ∧
     Log now n level message callFields s1 = Ok tt s2 ∧
     stdout s2 =
       stdout s ++
         [report jsonStdout (mkLogEntry now message level (Some r))
            (contents (maps s) callFields ∪
               (contents (maps s) fields ∪ deepUnion (layers s path)))]).
Proof.
  intros Hwf Hl Hanc Hf Hcf Hser Hen. split.
  - destruct (Child_run jsonStdout s l lg path fields) as [g Hg]; try done.
    destruct (Log_on_child now level message s l lg path fields g None
                callFields) as (s2 & r & Hrun & Hout); try done.
    { by left. }
    { intros (tbl & _ & ?). done. }
    eauto 10.
  - destruct (WithFields_run jsonStdout s l lg path fields) as [g Hg];
      try done.
    rewrite Hser in Hg.
    destruct (Log_on_child now level message s l lg path fields g None
                callFields) as (s2 & r & Hrun & Hout); try done.
    { by left. }
    { intros (tbl & _ & ?). done. }
    eauto 10.
Qed.

(** X13.  [WithSerializers] with an empty (or nil) table is harmless: the
    closure it installs hands the message and the fields back, and an
    enabled call on the new logger writes one line whose fields are the
    call-site fields laid over the merged fields of the caller. *)
Theorem Log_after_empty_WithSerializers now level message (s : State) l lg
    path callFields :
  wf s → loggers s !! l = Some lg → ancestry (loggers s) l path →
  validRef (maps s) callFields →
  isEnabled lg level = true →
  ∃ s1 n s2 r,
    WithSerializers jsonStdout l ∅ s = Ok n s1 ∧
    Log now n level message callFields s1 = Ok tt s2 ∧
    stdout s2 =
      stdout s ++
        [report jsonStdout (mkLogEntry now message level (Some r))
           (contents (maps s) callFields ∪ deepUnion (layers s path))].
Proof.
  intros Hwf Hl Hanc Hcf Hen.
  destruct (WithSerializers_run jsonStdout s l lg path ∅) as [g Hg];
    try done.
  destruct (Log_on_child now level message s l lg path None g
              (Some (compositeSerializer ∅)) callFields)
    as (s2 & r & Hrun & Hout); try done.
  { right. by eexists. }
  { intros (tbl & Hne & Htbl). injection Htbl as Htbl.
    pose proof (f_equal (λ f, f (VString "") []) Htbl) as Heq.
    simpl in Heq. rewrite !compositeSerializer_string in Heq.
    rewrite decide_True, decide_False in Heq; done. }
  do 4 eexists. split; [exact Hg|]. split; [exact Hrun|].
  rewrite Hout. simpl. by rewrite (left_id_L ∅ (∪)).
Qed.

End ChildCalls.

(** * Writes of the caller to field maps *)

Section CallerWrites.

Variable jsonStdout : Encoder.

(** X14.  The event fields of a new child are a map of their own: a later
    write of the caller to any map that existed before the call, the
    argument of [Child] and the event fields of the parent included, is
    seen in that map and leaves the event fields of the child as they
    were. *)
Theorem Child_fields_are_a_copy (s : State) l lg fields r key val :
  wf s → loggers s !! l = Some lg → validRef (maps s) fields →
  r < length (maps s) →
  ∃ s1 n s2,
    Child jsonStdout l fields s = Ok n s1 ∧
    mapAssign (Some r) key val s1 = Ok tt s2 ∧
    contents (maps s2) (Some r) !! key = Some val ∧
    eventFieldsOf s2 n = eventFieldsOf s1 n.
Proof.
  intros Hwf Hl Hf Hr.
  destruct (wf_ancestry s Hwf l) as (path & Hanc & _); [by eexists|].
  destruct (Child_run jsonStdout s l lg path fields) as [g Hg]; try done.
  do 3 eexists. split; [exact Hg|]. split; [reflexivity|]. simpl.
  split.
  - rewrite list_lookup_insert_eq.
    + simpl. by rewrite lookup_insert_eq.
    + rewrite length_app. lia.
  - unfold eventFieldsOf. simpl.
    pose proof (lookup_lt_Some _ _ _ Hl) as Hlt.
    rewrite list_lookup_insert_ne by lia. rewrite lookup_snoc. simpl.
    rewrite list_lookup_insert_ne; [done|].
    rewrite !length_app. simpl. lia.
Qed.

(** X15.  The walk up the ancestors is made at the time of the call: a
    key written to the event fields of the parent after the child was made
    shows in the merged fields of the child, unless the child or the call
    site has the key.  The API never makes such a write; a caller can,
    since [EventFields] is an exported map. *)
Theorem mergeFields_sees_later_parent_fields (s : State) c lgc p lgp rp
    fields key val :
  wf s → loggers s !! c = Some lgc → Parent lgc = Some p →
  loggers s !! p = Some lgp → EventFields lgp = Some rp →
  validRef (maps s) fields →
  contents (maps s) fields !! key = None →
  eventFieldsOf s c !! key = None →
  ∃ s1 r s2 merged,
    mapAssign (Some rp) key val s = Ok tt s1 ∧
    mergeFields (length (loggers s1)) c fields s1 = Ok (Some r) s2 ∧
    maps s2 !! r = Some merged ∧
    merged !! key = Some val.
Proof.
  intros Hwf Hc Hpar Hp Hrp Hf Hfk Hck.
  pose proof (wf_validRef s p lgp Hwf Hp) as Hvp. rewrite Hrp in Hvp.
  simpl in Hvp.
  set (h1 := <[rp := <[key := val]> (default ∅ (maps s !! rp))]> (maps s)).
  set (s1 := mkState (loggers s) h1 (stdout s)).
  assert (∀ m, contents h1 m !! key = Some val ∨
               contents h1 m = contents (maps s) m) as Hwrite.
  { intros [r|]; [|by right]. simpl. unfold h1.
    destruct (decide (r = rp)) as [->|Hne].
    - left. rewrite list_lookup_insert_eq by done. simpl.
      by rewrite lookup_insert_eq.
    - right. by rewrite list_lookup_insert_ne. }
  assert (wf s1) as Hwf1.
  { intros i lg Hi. destruct (Hwf i lg Hi) as [Hpi Hvi]. split; [done|].
    simpl. unfold h1. destruct (EventFields lg); simpl in *; [|done].
    by rewrite length_insert. }
  destruct (wf_ancestry s1 Hwf1 p) as (pathp & Hancp & _); [by eexists|].
  assert (ancestry (loggers s1) c (pathp ++ [c])) as Hanc
    by (by eapply ancestry_child).
  destruct (mergeFields_wf s1 c fields (pathp ++ [c]) Hwf1 Hanc) as [g Hg].
  { destruct fields; simpl in *; [|done]. unfold h1.
    by rewrite length_insert. }
  exists s1. do 3 eexists. split; [reflexivity|]. split; [exact Hg|].
  simpl. split; [by rewrite (assoc_L (++)), lookup_snoc|].
  destruct (ancestry_last _ _ _ Hancp) as [pathpp ->].
  unfold layers. rewrite !fmap_app. simpl. rewrite !deepUnion_snoc.
  assert (eventFieldsOf s1 p !! key = Some val) as Hpk.
  { unfold eventFieldsOf. simpl. rewrite Hp, Hrp. simpl. unfold h1.
    rewrite list_lookup_insert_eq by done. simpl.
    by rewrite lookup_insert_eq. }
  assert (eventFieldsOf s1 c !! key = Some val ∨
          eventFieldsOf s1 c !! key = None) as Hck1.
  { unfold eventFieldsOf in *. simpl. rewrite Hc in *.
    destruct (Hwrite (EventFields lgc)) as [Hw | ->]; [by left|by right]. }
  assert (contents h1 fields !! key = Some val ∨
          contents h1 fields !! key = None) as Hfk1.
  { destruct (Hwrite fields) as [Hw | ->]; [by left|by right]. }
  destruct Hfk1 as [Hfk1|Hfk1]; [by apply lookup_union_Some_l|].
  rewrite lookup_union_r by done.
  destruct Hck1 as [Hck1|Hck1]; [by apply lookup_union_Some_l|].
  rewrite lookup_union_r by done.
  by apply lookup_union_Some_l.
Qed.

End CallerWrites.

(** * Instances *)

Lemma compareLogEntries_sym_trans_witness :
  compareLogEntries sampleMarshal
    [{["ok" := VBool true]}; {["ok" := VBool true]}]
    (mkLogEntry "2024-01-01T00:00:00Z" "hello" "info" (Some 1))
    (mkLogEntry "2024-01-01T00:00:00Z" "hello" "info" (Some 0)) = true ∧
  compareLogEntries sampleMarshal
    [{["ok" := VBool true]}; {["ok" := VBool true]}]
    (mkLogEntry "2024-01-01T00:00:00Z" "hello" "info" (Some 0))
    (mkLogEntry "2024-01-01T00:00:00Z" "hello" "info" (Some 0)) = true.
Proof.
  apply (compareLogEntries_sym_trans sampleMarshal
           [{["ok" := VBool true]}; {["ok" := VBool true]}]
           (mkLogEntry "2024-01-01T00:00:00Z" "hello" "info" (Some 0))
           (mkLogEntry "2024-01-01T00:00:00Z" "hello" "info" (Some 1))
           (mkLogEntry "2024-01-01T00:00:00Z" "hello" "info" (Some 0))).
  - by vm_compute.
  - by vm_compute.
Defined.

Lemma maps_and_output_are_kept_witness :
  ∃ s', after (run acceptAll (CallChild 0 None) quietRoot) s' ∧
    maps quietRoot `prefix_of` maps s' ∧
    stdout quietRoot `prefix_of` stdout s' ∧
    stdout s' = stdout quietRoot.
Proof.
  apply (maps_and_output_are_kept acceptAll quietRoot (CallChild 0 None)).
  - apply wf_quietRoot.
  - intros [|i] lg H; simpl in H; [|by rewrite lookup_nil in H].
    simplify_eq. by left.
  - simpl. split; [by eexists|exact I].
Defined.

Lemma Log_after_Child_witness :
  (∃ s1 n s2 r,
     Child acceptAll 0 None (rootStore acceptAll) = Ok n s1 ∧
     Log "2024-01-01T00:00:00Z" n "info" "hello" None s1 = Ok tt s2 ∧
     stdout s2 =
       [] ++
         [report acceptAll
            (mkLogEntry "2024-01-01T00:00:00Z" "hello" "info" (Some r))
            (∅ ∪ (∅ ∪ deepUnion (layers (rootStore acceptAll) [0])))]) ∧
  (∃ s1 n s2 r,
     WithFields acceptAll 0 None (rootStore acceptAll) = Ok n s1 ∧
     Log "2024-01-01T00:00:00Z" n "info" "hello" None s1 = Ok tt s2 ∧
     stdout s2 =
       [] ++
         [report acceptAll
            (mkLogEntry "2024-01-01T00:00:00Z" "hello" "info" (Some r))
            (∅ ∪ (∅ ∪ deepUnion (layers (rootStore acceptAll) [0])))]).
Proof.
  apply (Log_after_Child acceptAll "2024-01-01T00:00:00Z" "info" "hello"
           (rootStore acceptAll) 0
           (mkLogger "info" acceptAll None [] (Some 0) None) [0] None None).
  - apply wf_rootStore.
  - reflexivity.
  - by eapply ancestry_root.
  - exact I.
  - exact I.
  - reflexivity.
  - by vm_compute.
Defined.

Lemma Log_after_empty_WithSerializers_witness :
  ∃ s1 n s2 r,
    WithSerializers acceptAll 0 ∅ (rootStore acceptAll) = Ok n s1 ∧
    Log "2024-01-01T00:00:00Z" n "info" "hello" None s1 = Ok tt s2 ∧
    stdout s2 =
      [] ++
        [report acceptAll
           (mkLogEntry "2024-01-01T00:00:00Z" "hello" "info" (Some r))
           (∅ ∪ deepUnion (layers (rootStore acceptAll) [0]))].
Proof.
  apply (Log_after_empty_WithSerializers acceptAll "2024-01-01T00:00:00Z"
           "info" "hello" (rootStore acceptAll) 0
           (mkLogger "info" acceptAll None [] (Some 0) None) [0] None).
  - apply wf_rootStore.
  - reflexivity.
  - by eapply ancestry_root.
  - exact I.
  - by vm_compute.
Defined.

Lemma Child_fields_are_a_copy_witness :
  ∃ s1 n s2,
    Child acceptAll 0 (Some 0) quietRoot = Ok n s1 ∧
    mapAssign (Some 0) "app" (VString "other") s1 = Ok tt s2 ∧
    contents (maps s2) (Some 0) !! "app" = Some (VString "other") ∧
    eventFieldsOf s2 n = eventFieldsOf s1 n.
Proof.
  apply (Child_fields_are_a_copy acceptAll quietRoot 0
           (mkLogger "warn" (λ _ _, Some "closed"%string) None [] (Some 0) None)
           (Some 0) 0 "app" (VString "other")).
  - apply wf_quietRoot.
  - reflexivity.
  - simpl. lia.
  - simpl. lia.
Defined.

Lemma mergeFields_sees_later_parent_fields_witness :
  ∃ s1 r s2 merged,
    mapAssign (Some 0) "late" (VInt 7) parentAndChild = Ok tt s1 ∧
    mergeFields (length (loggers s1)) 1 None s1 = Ok (Some r) s2 ∧
    maps s2 !! r = Some merged ∧
    merged !! "late" = Some (VInt 7).
Proof.
  eapply (mergeFields_sees_later_parent_fields parentAndChild 1 _ 0 _ 0
            None "late" (VInt 7)).
  - destruct (reachable_inv acceptAll _ reachable_parentAndChild) as [H _].
    exact H.
  - reflexivity.
  - reflexivity.
  - reflexivity.
  - reflexivity.
  - exact I.
  - reflexivity.
  - by vm_compute.
Defined.
